(** * A zipper over a multi-way tree (zipper/zipper.hpp)

    [node<T>] keeps its children by value in a [std::vector<node<T>>] and a
    raw pointer to its parent; [zipper<T>] owns the root node and a raw
    pointer [current] to the focused node.  The raw pointers are what the
    navigation relies on, so the embedding keeps the objects in an explicit
    store: the root node lives inside the zipper object, every other node
    lives in a slot of a vector buffer, and a pointer is the address of such
    a place.  Buffers are never reused once released, so that a pointer into
    a released buffer is recognisably dangling. *)

From Stdlib Require Import ZArith Lia Ascii String.
From stdpp Require Import base option list strings pretty.

Open Scope Z_scope.
Open Scope nat_scope.

Set Warnings "-register-all".

(** ** Addresses and objects *)

(** A buffer obtained from the allocator. *)
Definition block := nat.

(** [node<T>*]: null, the address of [zipper::root], or the address of slot
    [i] of buffer [b]. *)
Inductive ptr : Type :=
| nullptr
| Root
| Elem (b : block) (i : nat).

#[global] Instance ptr_eq_dec : EqDecision ptr.
Proof. solve_decision. Defined.

(** [std::vector<node<T>>] as an object: start of storage, number of
    constructed elements, number of slots. *)
Record vector : Type := Vector {
  v_data : option block;
  v_size : nat;
  v_capacity : nat
}.

Definition empty_vector : vector := Vector None 0 0.

(** [std::exception] objects the code throws. *)
Inductive exception : Type :=
| runtime_error (what : string).

(** Whether a value of type [R] can stand where a condition is expected,
    and the [bool] it converts to. *)
Class BoolTestable (R : Type) : Type :=
  as_condition : option (R -> bool).

#[global] Instance bool_testable : BoolTestable bool := Some id.

(** [void]: an expression of this type is not a condition. *)
#[global] Instance void_testable : BoolTestable unit := None.

(** [k] fill characters. *)
Fixpoint spaces (k : nat) : string :=
  match k with
  | 0 => ""
  | S k' => String " " (spaces k')
  end.

Definition INT_MIN : Z := -2147483648.
Definition INT_MAX : Z := 2147483647.

(** The value of an [int] expression whose mathematical result is [r];
    signed overflow has no defined result. *)
Definition int_arith (r : Z) : option Z :=
  if decide (INT_MIN ≤ r ≤ INT_MAX)%Z then Some r else None.

(** How one call of a callable ends when it is handed a value of type [X]
    as a mutable lvalue: it returns [r] or throws [e], and either way it
    may have written to the value, now [x'], and to what it reaches by
    reference, now [s'].  (A callable that reaches the zipper it is called
    from is outside this model.) *)
Inductive call_end (X S R : Type) : Type :=
| Returned (x' : X) (r : R) (s' : S)
| Raised (e : exception) (x' : X) (s' : S).

Arguments Returned {X S R} x' r s'.
Arguments Raised {X S R} e x' s'.

Section Model.

Variable T : Type.

(** [class node]: [children], [parent], [value]. *)
Record node : Type := Node {
  children : vector;
  parent : ptr;
  value : T
}.

(** The store: buffer [b] holds its constructed elements, or [None] once it
    has been released.  A new buffer gets the next unused index. *)
#[local] Abbreviation heap := (list (option (list node))).

(** [class zipper]: [root], [current], together with the store the vectors
    of the tree live in. *)
Record zipper : Type := Zipper {
  root : node;
  current : ptr;
  mem : heap
}.

(** How a call ends: normally, by an exception, or with no behaviour defined
    by the language (a read through a dangling or null pointer, an ill-formed
    instantiation, flowing off the end of a value-returning function). *)
Inductive outcome (A : Type) : Type :=
| Ret (a : A) (z : zipper)
| Throw (e : exception) (z : zipper)
| Undefined.

Arguments Ret {A} a z.
Arguments Throw {A} e z.
Arguments Undefined {A}.

(** How a traversal that runs a callable of the caller ends: like
    [outcome], with the state [s] of what the callable reaches by
    reference. *)
Inductive traversal_end (S A : Type) : Type :=
| Done (a : A) (s : S) (z : zipper)
| Failed (e : exception) (s : S) (z : zipper)
| NoBehaviour.

Arguments Done {S A} a s z.
Arguments Failed {S A} e s z.
Arguments NoBehaviour {S A}.

Definition M (A : Type) : Type := zipper -> outcome A.

#[global] Instance M_ret : MRet M := fun A a z => Ret a z.

#[global] Instance M_bind : MBind M := fun A B k m z =>
  match m z with
  | Ret a z' => k a z'
  | Throw e z' => Throw e z'
  | Undefined => Undefined
  end.

Definition throw {A : Type} (e : exception) : M A := fun z => Throw e z.

Definition undefined {A : Type} : M A := fun _ => Undefined.

(** ** Reading and writing the store *)

Definition live (h : heap) (b : block) : option (list node) :=
  match h !! b with
  | Some (Some l) => Some l
  | _ => None
  end.

Definition load (z : zipper) (p : ptr) : option node :=
  match p with
  | nullptr => None
  | Root => Some (root z)
  | Elem b i => l ← live (mem z) b; l !! i
  end.

Definition store (p : ptr) (n : node) (z : zipper) : option zipper :=
  match p with
  | nullptr => None
  | Root => Some (Zipper n (current z) (mem z))
  | Elem b i =>
      l ← live (mem z) b;
      _ ← l !! i;
      Some (Zipper (root z) (current z) (<[b := Some (<[i := n]> l)]> (mem z)))
  end.

(** [*p] as an rvalue. *)
Definition deref (p : ptr) : M node := fun z =>
  match load z p with
  | Some n => Ret n z
  | None => Undefined
  end.

(** [*p = n]. *)
Definition assign (p : ptr) (n : node) : M unit := fun z =>
  match store p n z with
  | Some z' => Ret tt z'
  | None => Undefined
  end.

Definition get_mem : M heap := fun z => Ret (mem z) z.

Definition set_mem (h : heap) : M unit := fun z =>
  Ret tt (Zipper (root z) (current z) h).

(** A value that must exist for the access to be defined. *)
Definition defined {A : Type} (o : option A) : M A := fun z =>
  match o with
  | Some a => Ret a z
  | None => Undefined
  end.

Definition get_current : M ptr := fun z => Ret (current z) z.

Definition set_current (p : ptr) : M unit := fun z =>
  Ret tt (Zipper (root z) p (mem z)).

(** ** std::vector<node<T>> *)

(** The constructed elements [begin(), end()) of a vector. *)
Definition contents (h : heap) (v : vector) : option (list node) :=
  match v_data v with
  | None => if decide (v_size v = 0) then Some [] else None
  | Some b =>
      l ← live h b;
      if decide (length l = v_size v) then Some l else None
  end.

(** [&v[i]]: address arithmetic only, nothing is read. *)
Definition at_index (v : vector) (i : nat) : ptr :=
  match v_data v with
  | Some b => Elem b i
  | None => nullptr
  end.

(** [&v.back()]. *)
Definition back (v : vector) : ptr := at_index v (v_size v - 1).

(** New capacity chosen when a full vector of capacity [c] grows.  The
    standard leaves it to the library. *)
Variable grow : nat -> nat.

(** [v.emplace_back(args...)] for the vector [children] of the node at
    [owner], the new element being [new].  With spare capacity the element
    is constructed in place.  Otherwise a larger buffer is allocated, the new
    element is constructed in it, the old elements are moved over and the
    old buffer is released.  [node] has the implicit move constructor, used
    when [T] moves without throwing (as [int] does): a moved node keeps its
    fields, its own [children] buffer is handed over, [parent] and [value]
    are taken as they are. *)
Definition emplace_back (owner : ptr) (new : node) : M unit :=
  n ← deref owner;
  let v := children n in
  h ← get_mem;
  l ← defined (contents h v);
  if decide (v_size v < v_capacity v) then
    b ← defined (v_data v);
    set_mem (<[b := Some (l ++ [new])]> h);;
    assign owner
      (Node (Vector (Some b) (S (v_size v)) (v_capacity v))
            (parent n) (value n))
  else
    let b' := length h in
    let h1 := h ++ [Some (l ++ [new])] in
    set_mem (match v_data v with
             | Some b => <[b := None]> h1
             | None => h1
             end);;
    assign owner
      (Node (Vector (Some b') (S (v_size v)) (grow (v_capacity v)))
            (parent n) (value n)).

(** ** class node *)

(** [node::emplace_branch]: [children.emplace_back(this, args...)]. *)
Definition emplace_branch (this : ptr) (v : T) : M unit :=
  emplace_back this (Node empty_vector this v).

(** What a function template sees of a callable argument whose calls have
    result type [R]: the call on a child's value ([T&]) and the call on a
    node ([node<T>&]), each present when that call expression is
    well-formed.  An instantiation that needs an absent call is ill-formed.
    Where a template evaluates a call on a value, [R] is a function to a
    [call_end]: the value is handed over as a mutable lvalue and the call
    may throw.  Where a call only stands in an unevaluated operand
    ([decltype]), nothing but its presence matters. *)
Record callable (R : Type) : Type := Callable {
  on_value : option (T -> R);
  on_node : option (node -> R)
}.

Arguments Callable {R} on_value on_node.
Arguments on_value {R} c.
Arguments on_node {R} c.

(** Position of the first element on which [pred] holds, [length l] (the
    end iterator) when there is none. *)
Fixpoint find_position {A : Type} (pred : A -> bool) (l : list A) : nat :=
  match l with
  | [] => 0
  | x :: l' => if pred x then 0 else S (find_position pred l')
  end.

(** [std::find_if(first, last, pred)] uses the result of [pred] on an
    element as a condition, so the result type [R] of the predicate must
    convert to [bool]. *)
Definition find_if {A R : Type} `{BoolTestable R}
    (pred : A -> R) (l : list A) : option nat :=
  c ← as_condition;
  Some (find_position (fun x => c (pred x)) l).

(** [node::find_branch].  The lambda handed to [std::find_if] is
    [[p](const node<T>& n){ p(n.value); }]: it evaluates the predicate and
    has no return statement, so its result type is [void]. *)
Definition node_find_branch (p : T -> bool) (this : ptr) : M Z :=
  n ← deref this;
  h ← get_mem;
  l ← defined (contents h (children n));
  pos ← defined (find_if (fun c : node => let _ := p (value c) in tt) l);
  if decide (pos = length l) then mret (-1)%Z else mret (Z.of_nat pos).

(** [std::for_each(first, last, f)] over the elements [l], [f] being handed
    each element as a mutable lvalue: the elements as the calls left them,
    the caller's state, and the exception that ended the loop, if any.  An
    exception leaves the later elements unvisited. *)
Fixpoint for_each {A S : Type} (f : A -> S -> call_end A S unit)
    (l : list A) (s : S) : list A * S * option exception :=
  match l with
  | [] => ([], s, None)
  | x :: l' =>
      match f x s with
      | Returned x' _ s' =>
          let '(l'', s'', e) := for_each f l' s' in (x' :: l'', s'', e)
      | Raised e x' s' => (x' :: l', s', Some e)
      end
  end.

(** A call on the [value] member of the node [n]: what it writes goes to
    that member. *)
Definition on_member {S R : Type} (f : T -> S -> call_end T S R) (n : node)
    (s : S) : call_end node S R :=
  match f (value n) s with
  | Returned v' r s' => Returned (Node (children n) (parent n) v') r s'
  | Raised e v' s' => Raised e (Node (children n) (parent n) v') s'
  end.

(** The elements of the vector [v] after they were written to in place. *)
Definition write_back (h : heap) (v : vector) (l : list node) : heap :=
  match v_data v with
  | Some b => <[b := Some l]> h
  | None => h
  end.

(** [node::foreach_child]: the lambda [[p](node<T>& n){ p(n.value); }]
    calls [p] on the value, a mutable lvalue, and drops the result. *)
Definition foreach_child {S : Type}
    (p : callable (S -> call_end T S unit)) (this : ptr) (s : S) (z : zipper)
    : traversal_end S unit :=
  match on_value p with
  | None => NoBehaviour
  | Some f =>
      match load z this with
      | None => NoBehaviour
      | Some n =>
          match contents (mem z) (children n) with
          | None => NoBehaviour
          | Some l =>
              let '(l', s', e) := for_each (on_member f) l s in
              let z' := Zipper (root z) (current z)
                               (write_back (mem z) (children n) l') in
              match e with
              | None => Done tt s' z'
              | Some e => Failed e s' z'
              end
          end
      end
  end.

(** [node::map_children], instantiated with [decltype(p(children[0]))]
    being [void]: the return type needs [p(value)], the condition needs
    [p(children[0])], the body is [foreach_child(p)]. *)
Definition map_children_void {S : Type}
    (p : callable (S -> call_end T S unit)) (this : ptr) (s : S) (z : zipper)
    : traversal_end S unit :=
  match on_value p, on_node p with
  | Some _, Some _ => foreach_child p this s z
  | _, _ => NoBehaviour
  end.

(** A traversal whose caller state is its result. *)
Definition collected {S : Type} (t : zipper -> traversal_end S unit) : M S :=
  fun z =>
    match t z with
    | Done _ s z' => Ret s z'
    | Failed e _ z' => Throw e z'
    | NoBehaviour => Undefined
    end.

(** [node::map_children], instantiated with a result type [U] other than
    [void].  [result] starts empty and [foreach_child] is handed the lambda
    [[&result, p](node& n){ result.push_back(p(n)); }], whose parameter is a
    [node&]: it can be called on a node and not on a value.  No call of [p]
    is ever reached, so what such a call does beyond its result is not
    modelled. *)
Definition map_children {U : Type} (p : callable U) (this : ptr)
    : M (list U) :=
  _ ← defined (on_value p);
  g ← defined (on_node p);
  collected
    (foreach_child
       (Callable None
          (Some (fun (n : node) (result : list U) =>
                   Returned (value n) tt (result ++ [g n]))))
       this []).

(** The loop [for (auto&& v : children) res = f(v.value, res);], the value
    being handed to [f] as a mutable lvalue: the elements as the calls left
    them, the caller's state, and the final [res] or the exception that
    ended the loop. *)
Fixpoint fold_loop {S Acc : Type} (f : T -> Acc -> S -> call_end T S Acc)
    (l : list node) (res : Acc) (s : S)
    : list node * S * (Acc + exception) :=
  match l with
  | [] => ([], s, inl res)
  | v :: l' =>
      match f (value v) res s with
      | Returned v' res' s' =>
          let '(l'', s'', r) := fold_loop f l' res' s' in
          (Node (children v) (parent v) v' :: l'', s'', r)
      | Raised e v' s' =>
          (Node (children v) (parent v) v' :: l', s', inr e)
      end
  end.

(** [node::fold_children], with [RetType] and [Acc] the same type (the two
    [static_assert]s ask that each converts to the other).
    [RetType = decltype(f(children[0], init))] needs the call of [f] on a
    node; the loop calls [f] on the values. *)
Definition node_fold_children {S Acc : Type}
    (f : callable (Acc -> S -> call_end T S Acc)) (init : Acc) (this : ptr)
    (s : S) (z : zipper) : traversal_end S Acc :=
  match on_node f, on_value f with
  | Some _, Some g =>
      match load z this with
      | None => NoBehaviour
      | Some n =>
          match contents (mem z) (children n) with
          | None => NoBehaviour
          | Some l =>
              let '(l', s', r) := fold_loop g l init s in
              let z' := Zipper (root z) (current z)
                               (write_back (mem z) (children n) l') in
              match r with
              | inl res => Done res s' z'
              | inr e => Failed e s' z'
              end
          end
      end
  | _, _ => NoBehaviour
  end.

(** [operator<<(std::ostream&, const T&)]: the characters written for a
    value when no field width is set. *)
Variable show : T -> string.

(** [output << std::setw(w) << x] for a [T] whose inserter pads like the
    built-in ones: the text of [x], filled with spaces on the left up to
    [w] characters. *)
Definition put_setw (w : Z) (text : string) : string :=
  spaces (Z.to_nat w - String.length text) +:+ text.

(** [std::endl]. *)
Definition endl : string := String "010" "".

(** A loop over [l] whose body may have no defined result. *)
Fixpoint for_each_defined {A S : Type} (f : A -> S -> option S) (l : list A)
    (s : S) : option S :=
  match l with
  | [] => Some s
  | x :: l' => s' ← f x s; for_each_defined f l' s'
  end.

(** [node::printTree(output, depth)] on the node [n], returning the
    characters on the stream afterwards.  The recursion follows the
    ownership of buffers through the store, which is not structural there:
    [fuel] bounds the depth of the calls, and [None] is returned when it
    runs out, when a buffer is missing or when an [int] overflows. *)
Fixpoint node_printTree (fuel : nat) (h : heap) (n : node) (depth : Z)
    (output : string) : option string :=
  match fuel with
  | 0 => None
  | S fuel' =>
      w ← int_arith (depth * 4);
      let output := output +:+ put_setw w (show (value n)) +:+ endl in
      l ← contents h (children n);
      for_each_defined
        (fun ch out => d ← int_arith (depth + 1); node_printTree fuel' h ch d out)
        l output
  end.

(** ** class zipper *)

(** [zipper(U&&... args)]: the root has no parent, [current{&root}]. *)
Definition zipper_init (v : T) : zipper :=
  Zipper (Node empty_vector nullptr v) Root [].

(** [can_step_back]: [current->parent != nullptr]. *)
Definition can_step_back : M bool :=
  cur ← get_current;
  n ← deref cur;
  mret (bool_decide (parent n ≠ nullptr)).

Definition cannot_step_back : exception :=
  runtime_error "zipper::step_back: cannot step back.".

(** [step_back()]. *)
Definition step_back : M unit :=
  ok ← can_step_back;
  if negb ok then throw cannot_step_back
  else
    cur ← get_current;
    n ← deref cur;
    set_current (parent n).

(** [for (int i = from; i < to; ++i) body(i);] with [k] iterations left.
    An exception leaves the loop. *)
Fixpoint for_loop (k : nat) (i : Z) (body : Z -> M unit) : M unit :=
  match k with
  | 0 => mret tt
  | S k' => body i ;; for_loop k' (i + 1)%Z body
  end.

(** The loop runs [to - from] times when that is positive and not at all
    otherwise; [i] stays below [to], so [++i] does not overflow. *)
Definition for_int (from to : Z) (body : Z -> M unit) : M unit :=
  for_loop (Z.to_nat (to - from)) from body.

(** [step_back(int n)]: [for (int i = 0; i < n; ++i) step_back();]. *)
Definition step_back_n (n : Z) : M unit :=
  for_int 0 n (fun _ => step_back).

Definition invalid_branch_negative : exception :=
  runtime_error
    (String.append
       "zipper::step_forward: invalid branch id"
       (String "010"%char
          (String "009"%char
             "possibly did not check the result of zipper::find_branch."))).

Definition invalid_branch_too_large : exception :=
  runtime_error
    (String.append
       "zipper::step_forward: invalid branch id"
       (String "010"%char
          (String "009"%char
             "use only the result of zipper::find_branch."))).


(** [step_forward(int branch)].  In [branch >= current->children.size()] the
    non-negative [branch] is converted to [size_t] without change. *)
Definition step_forward (branch : Z) : M unit :=
  if decide (branch < 0)%Z then throw invalid_branch_negative
  else
    cur ← get_current;
    n ← deref cur;
    if decide (Z.of_nat (v_size (children n)) ≤ branch)%Z
    then throw invalid_branch_too_large
    else set_current (at_index (children n) (Z.to_nat branch)).

(** [entre_new_branch(args...)]. *)
Definition entre_new_branch (v : T) : M unit :=
  cur ← get_current;
  emplace_branch cur v;;
  n ← deref cur;
  set_current (back (children n)).

(** [zipper::find_branch]: [{ current->find_branch(p); }].  The result of
    the call is dropped and control flows off the end of a function
    returning [int]. *)
Definition find_branch (p : T -> bool) : M Z :=
  cur ← get_current;
  _ ← node_find_branch p cur;
  undefined.

(** [zipper::map_branches], for a result type other than [void] and for
    [void]. *)
Definition map_branches {U : Type} (p : callable U) : M (list U) :=
  cur ← get_current;
  map_children p cur.

Definition map_branches_void {S : Type}
    (p : callable (S -> call_end T S unit)) (s : S) (z : zipper)
    : traversal_end S unit :=
  map_children_void p (current z) s z.

(** [zipper::fold_children]. *)
Definition fold_children {S Acc : Type}
    (f : callable (Acc -> S -> call_end T S Acc)) (init : Acc) (s : S)
    (z : zipper) : traversal_end S Acc :=
  node_fold_children f init (current z) s z.

(** [zipper::printTree]: [root.printTree(output, 0)]. *)
Definition printTree (fuel : nat) (output : string) (z : zipper)
    : option string :=
  node_printTree fuel (mem z) (root z) 0 output.

End Model.

Abbreviation heap T := (list (option (list (node T)))).

Arguments Node {T} children parent value.
Arguments children {T} n.
Arguments parent {T} n.
Arguments value {T} n.
Arguments Zipper {T} root current mem.
Arguments root {T} z.
Arguments current {T} z.
Arguments mem {T} z.
Arguments Ret {T A} a z.
Arguments Throw {T A} e z.
Arguments Undefined {T A}.
Arguments throw {T A} e z.
Arguments undefined {T A} z.
Arguments live {T} h b.
Arguments load {T} z p.
Arguments store {T} p n z.
Arguments deref {T} p z.
Arguments assign {T} p n z.
Arguments get_mem {T} z.
Arguments set_mem {T} h z.
Arguments defined {T A} o z.
Arguments get_current {T} z.
Arguments set_current {T} p z.
Arguments contents {T} h v.
Arguments emplace_back {T} grow owner new z.
Arguments emplace_branch {T} grow this v z.
Arguments zipper_init {T} v.
Arguments can_step_back {T} z.
Arguments step_back {T} z.
Arguments for_loop {T} k i body z.
Arguments for_int {T} from to body z.
Arguments Callable {T R} on_value on_node.
Arguments on_value {T R} c.
Arguments on_node {T R} c.
Arguments node_find_branch {T} p this z.
Arguments Done {T S A} a s z.
Arguments Failed {T S A} e s z.
Arguments NoBehaviour {T S A}.
Arguments on_member {T S R} f n s.
Arguments write_back {T} h v l.
Arguments collected {T S} t z.
Arguments foreach_child {T S} p this s z.
Arguments map_children_void {T S} p this s z.
Arguments map_children {T U} p this z.
Arguments fold_loop {T S Acc} f l res s.
Arguments node_fold_children {T S Acc} f init this s z.
Arguments node_printTree {T} show fuel h n depth output.
Arguments find_branch {T} p z.
Arguments map_branches {T U} p z.
Arguments map_branches_void {T S} p s z.
Arguments fold_children {T S Acc} f init s z.
Arguments printTree {T} show fuel output z.
Arguments step_back_n {T} n z.
Arguments step_forward {T} branch z.
Arguments entre_new_branch {T} grow v z.

(** ** Well-formed stores *)

Section Invariant.

Context {T : Type}.

(** The vector object agrees with the store: its buffer is live and holds
    [v_size] elements, and a vector without a buffer has no capacity. *)
Definition vec_ok (h : heap T) (v : vector) : Prop :=
  is_Some (contents h v) ∧ (v_data v = None → v_capacity v = 0).

(** The buffers lie in layers: [dp] gives 0 for the root's buffer and one
    more than the layer of a node for the node's buffer, and stays below
    the number of buffers ever allocated.  So the ownership has no cycle. *)
Definition layered (z : zipper T) (dp : block → nat) : Prop :=
  (∀ c, v_data (children (root z)) = Some c → dp c = 0) ∧
  (∀ b i n c, load z (Elem b i) = Some n →
     v_data (children n) = Some c → dp c = S (dp b)) ∧
  (∀ b l, live (mem z) b = Some l → dp b < length (mem z)).

(** What every store built by the zipper satisfies, whatever became of the
    pointers: the root has a null [parent] and no other node has; every
    live node's vector is backed by the store; no node sits in its own
    [children] buffer, no two live nodes share a buffer, and the buffers
    lie in layers. *)
Record wf (z : zipper T) : Prop := WF {
  wf_root : parent (root z) = nullptr;
  wf_elem : ∀ b i n, load z (Elem b i) = Some n → parent n ≠ nullptr;
  wf_vec : ∀ p n, load z p = Some n → vec_ok (mem z) (children n);
  wf_own : ∀ b i n, load z (Elem b i) = Some n → v_data (children n) ≠ Some b;
  wf_inj : ∀ p q n m c,
    load z p = Some n → load z q = Some m →
    v_data (children n) = Some c → v_data (children m) = Some c → p = q;
  wf_layers : ∃ dp, layered z dp
}.

(** Where a node found at [q] after [emplace_back] sat before: at [q]
    itself, or in the buffer that was released, at the same index. *)
Definition carried (z z' : zipper T) (n : node T) (bn : block) (q q0 : ptr)
    : Prop :=
  q = q0 ∨
  ∃ bo j, v_data (children n) = Some bo ∧ live (mem z') bo = None ∧
          q = Elem bn j ∧ q0 = Elem bo j.

(** The cursor designates the live node [n]. *)
Definition focused (z : zipper T) (n : node T) : Prop :=
  load z (current z) = Some n.

(** The state a run ends in. *)
Definition final_state {A : Type} (o : outcome T A) : option (zipper T) :=
  match o with
  | Ret _ z | Throw _ z => Some z
  | Undefined => None
  end.

(** Whatever way the action ends, the state it ends in is well-formed. *)
Definition preserves_wf {A : Type} (m : M T A) : Prop :=
  ∀ z z', wf z → final_state (m z) = Some z' → wf z'.

End Invariant.

(** ** The tree a store represents *)

Section Trees.

Variable T : Type.

(** A multi-way tree of values, children in order. *)
Inductive tree : Type :=
| Tree (v : T) (ts : list tree).

(** The tree below the node [n], read by following the buffers for at most
    [fuel] levels. *)
Fixpoint tree_of (fuel : nat) (h : heap T) (n : node T) : option tree :=
  match fuel with
  | 0 => None
  | S fuel' =>
      l ← contents h (children n);
      ts ← mapM (tree_of fuel' h) l;
      Some (Tree (value n) ts)
  end.

(** The nodes in pre-order, each with its depth, the root being at depth
    [d]. *)
Fixpoint preorder (d : nat) (t : tree) : list (nat * T) :=
  match t with
  | Tree v ts => (d, v) :: mjoin (preorder (S d) <$> ts)
  end.

(** Number of levels. *)
Fixpoint height (t : tree) : nat :=
  match t with
  | Tree _ ts => S (foldr Nat.max 0 (height <$> ts))
  end.

Variable show : T -> string.

(** The line for a node at depth [d]: its value in a field of [d × 4]
    characters, then the line terminator. *)
Definition line (dv : nat * T) : string :=
  put_setw (Z.of_nat (dv.1 * 4)) (show dv.2) +:+ endl.

(** The text of a tree: the lines of its nodes in pre-order. *)
Definition render (d : nat) (t : tree) : string :=
  foldr String.append "" (line <$> preorder d t).

End Trees.

Arguments Tree {T} v ts.
Arguments tree_of {T} fuel h n.
Arguments preorder {T} d t.
Arguments height {T} t.
Arguments line {T} show dv.
Arguments render {T} show d t.

(** The values of the children of the node [n], in child order. *)
Definition child_values {T : Type} (z : zipper T) (n : node T) : list T :=
  match contents (mem z) (children n) with
  | Some l => value <$> l
  | None => []
  end.

(** ** The demo driver (zipper/test.cpp) and the scenarios *)

(** Growth of a full [std::vector] in libstdc++: the size (here equal to
    the capacity) plus [max(size, 1)]. *)
Definition libstdcxx_grow (c : nat) : nat := c + Nat.max c 1.

(** The body of the loop of [main]. *)
Definition demo_step (i : Z) : M Z unit :=
  if decide (i `rem` 6 = 5)%Z then step_back_n 5
  else entre_new_branch libstdcxx_grow i.

(** [zipper<int> z(-1);] *)
Definition demo_start : zipper Z := zipper_init (-1)%Z.

(** The first [k] iterations of [for (int i = 0; i < 26; ++i) ...]. *)
Definition demo_loop (k : Z) : M Z unit := for_int 0 k demo_step.

(** [main]: what ends up on [std::cerr] and on [std::cout]. *)
Definition demo_main (fuel : nat) : option (string * string) :=
  match demo_loop 26 demo_start with
  | Ret _ z =>
      out ← printTree pretty fuel "" z; Some ("", out)
  | Throw (runtime_error what) z =>
      out ← printTree pretty fuel "" z;
      Some ("Exception: " +:+ what +:+ endl, out)
  | Undefined => None
  end.

(** Children with the values [vs] appended to the focused node, the cursor
    coming back after each. *)
Fixpoint add_children (vs : list Z) : M Z unit :=
  match vs with
  | [] => mret tt
  | v :: vs' => entre_new_branch libstdcxx_grow v ;; step_back ;; add_children vs'
  end.

(** Scenario C: a root with three children valued 10, 20, 30. *)
Definition scenario_C : option (zipper Z) :=
  final_state (add_children [10; 20; 30]%Z (zipper_init 0%Z)).

(** Scenario D: a root with four children valued 1, 2, 3, 4. *)
Definition scenario_D : option (zipper Z) :=
  final_state (add_children [1; 2; 3; 4]%Z (zipper_init 0%Z)).

(** A chain -1, 0, 1, two steps back to the root, then a second child of
    the root: the append that makes the root's [children] grow. *)
Definition grow_under_root : M Z unit :=
  entre_new_branch libstdcxx_grow 0%Z ;;
  entre_new_branch libstdcxx_grow 1%Z ;;
  step_back_n 2 ;;
  entre_new_branch libstdcxx_grow 2%Z.

(** From there: to the root, into child 0, into its child, and back up. *)
Definition revisit_first_chain : M Z bool :=
  grow_under_root ;;
  step_back ;;
  step_forward 0 ;;
  step_forward 0 ;;
  step_back ;;
  can_step_back.

(** Invariant (1)/(5) of the specification for a store: the [parent] of
    every child is the address of the node whose buffer holds it. *)
Definition parents_correct {T : Type} (z : zipper T) : Prop :=
  ∀ p n c i ch,
    load z p = Some n → v_data (children n) = Some c →
    load z (Elem c i) = Some ch → parent ch = p.

(** The state of Scenario D. *)
Definition scenario_D_state : zipper Z :=
  Zipper (Node (Vector (Some 2) 4 4) nullptr 0%Z) Root
    [None; None;
     Some [Node empty_vector Root 1%Z; Node empty_vector Root 2%Z;
           Node empty_vector Root 3%Z; Node empty_vector Root 4%Z]].

(** A chain of values hanging below one another. *)
Fixpoint chain (vs : list Z) : list (tree Z) :=
  match vs with
  | [] => []
  | v :: vs' => [Tree v (chain vs')]
  end.

(** The tree the demo builds. *)
Definition demo_tree : tree Z :=
  Tree (-1)%Z
    (chain [0; 1; 2; 3; 4]%Z ++ chain [6; 7; 8; 9; 10]%Z ++
     chain [12; 13; 14; 15; 16]%Z ++ chain [18; 19; 20; 21; 22]%Z ++
     chain [24; 25]%Z).

(** What the demo writes to [std::cout]. *)
Definition demo_output : string :=
"-1
   0
       1
           2
               3
                   4
   6
       7
           8
               9
                  10
  12
      13
          14
              15
                  16
  18
      19
          20
              21
                  22
  24
      25
".

(** The iterations of the demo loop that call [step_back(5)]. *)
Definition demo_step_back_calls : list Z :=
  filter (λ i, i `rem` 6 = 5)%Z (seqZ 0 26).

(** The call of [step_back(5)] in iteration [i] fails with "cannot step
    back". *)
Definition demo_call_fails (i : Z) : Prop :=
  ∃ z z', demo_loop i demo_start = Ret tt z ∧
          step_back_n 5 z = Throw cannot_step_back z'.

(** The call of [step_back(5)] in iteration [i] returns, with the cursor on
    the root. *)
Definition demo_call_returns (i : Z) : Prop :=
  ∃ z z', demo_loop i demo_start = Ret tt z ∧
          step_back_n 5 z = Ret tt z' ∧ current z' = Root.

(** The state after [grow_under_root]: the root's buffer 0 has been
    released and its elements moved to buffer 2; node 1, still in buffer 1,
    keeps the old address of node 0 as its [parent]. *)
Definition grown_state : zipper Z :=
  Zipper (Node (Vector (Some 2) 2 2) nullptr (-1)%Z) (Elem 2 1)
    [None;
     Some [Node empty_vector (Elem 0 0) 1%Z];
     Some [Node (Vector (Some 1) 1 1) Root 0%Z; Node empty_vector Root 2%Z]].

(** From [grow_under_root]: to the root, into its child 0, into node 1. *)
Definition visit_node_1 : M Z unit :=
  grow_under_root ;;
  step_back ;;
  step_forward 0 ;;
  step_forward 0.

(** The state then: the store of [grown_state], the cursor on node 1. *)
Definition node_1_state : zipper Z :=
  Zipper (root grown_state) (Elem 1 0) (mem grown_state).

(** The folder [[](int v, int acc) { return v + acc; }]: it writes to
    nothing and does not throw (the sums of Scenario D stay within
    [int]). *)
Definition sum_folder (v acc : Z) (s : unit) : call_end Z unit Z :=
  Returned v (v + acc)%Z s.

(** A callable that records the values it is handed and doubles them in
    place, and throws when handed a 3. *)
Definition double_until_3 (v : Z) (seen : list Z) : call_end Z (list Z) unit :=
  if decide (v = 3%Z) then Raised (runtime_error "three") v seen
  else Returned (2 * v)%Z tt (seen ++ [v]).

(** The state of Scenario D after [double_until_3] was run over the
    children of the root: 1 and 2 were doubled, the call on 3 threw. *)
Definition scenario_D_after : zipper Z :=
  Zipper (root scenario_D_state) Root
    [None; None;
     Some [Node empty_vector Root 2%Z; Node empty_vector Root 4%Z;
           Node empty_vector Root 3%Z; Node empty_vector Root 4%Z]].

(** The state of Scenario C. *)
Definition scenario_C_state : zipper Z :=
  Zipper (Node (Vector (Some 2) 3 4) nullptr 0%Z) Root
    [None; None;
     Some [Node empty_vector Root 10%Z; Node empty_vector Root 20%Z;
           Node empty_vector Root 30%Z]].

(** Scenario A: the chain -1, 0, 1, 2 and its print-out. *)
Definition scenario_A_state : zipper Z :=
  Zipper (Node (Vector (Some 0) 1 1) nullptr (-1)%Z) (Elem 2 0)
    [Some [Node (Vector (Some 1) 1 1) Root 0%Z];
     Some [Node (Vector (Some 2) 1 1) (Elem 0 0) 1%Z];
     Some [Node empty_vector (Elem 1 0) 2%Z]].

(** ** The rest of class zipper, and what the properties below speak of *)

Section MoreZipper.

Context {T : Type}.

(** [zipper::can_step_forward]: [!current->children.empty()]. *)
Definition can_step_forward : M T bool :=
  cur ← get_current;
  n ← deref cur;
  mret (negb (bool_decide (v_size (children n) = 0))).

(** [zipper::available_branches]: [return current->children;], a reference
    to the vector object of the focused node. *)
Definition available_branches : M T vector :=
  cur ← get_current;
  n ← deref cur;
  mret (children n).

Variable grow : nat → nat.

(** A call of one of the members that move the cursor or grow the tree. *)
Inductive command : Type :=
| StepBack
| StepBackN (n : Z)
| StepForward (branch : Z)
| EntreNewBranch (v : T).

Definition run_command (c : command) : M T unit :=
  match c with
  | StepBack => step_back
  | StepBackN n => step_back_n n
  | StepForward branch => step_forward branch
  | EntreNewBranch v => entre_new_branch grow v
  end.

(** The states a caller can bring a zipper constructed from [v0] into, by
    calls that return or throw (the caller catching the exception, as the
    demo driver does). *)
Inductive reachable (v0 : T) : zipper T → Prop :=
| reachable_init : reachable v0 (zipper_init v0)
| reachable_step z c z' :
    reachable v0 z → final_state (run_command c z) = Some z' →
    reachable v0 z'.

(** [entre_new_branch] for each value of [vs] in turn: a chain hanging
    below the node the cursor starts on. *)
Fixpoint enter_chain (vs : list T) : M T unit :=
  match vs with
  | [] => mret tt
  | v :: vs' => entre_new_branch grow v ;; enter_chain vs'
  end.

(** Following the [parent] pointers [k] times from [p], through live nodes
    with a non-null [parent], ends at [q]. *)
Fixpoint climbs (z : zipper T) (k : nat) (p q : ptr) : Prop :=
  match k with
  | 0 => p = q
  | S k' => ∃ n, load z p = Some n ∧ parent n ≠ nullptr ∧
                 climbs z k' (parent n) q
  end.

(** Every node live in [z] is live in [z'] at the same address, with the
    same [parent] and [value]. *)
Definition nodes_kept (z z' : zipper T) : Prop :=
  ∀ q m, load z q = Some m →
    ∃ m', load z' q = Some m' ∧ parent m' = parent m ∧ value m' = value m.

(** Whatever way the action ends, a state satisfying [P] is left in a
    state satisfying [P]. *)
Definition keeps {A : Type} (P : zipper T → Prop) (m : M T A) : Prop :=
  ∀ z z', P z → final_state (m z) = Some z' → P z'.

(** The node [m'] has the [children] and the [parent] of [m]. *)
Definition same_links (m m' : node T) : Prop :=
  children m' = children m ∧ parent m' = parent m.

(** From [z] to [z'] nothing happened but writes to the [value] of nodes
    in the buffer [c]: the root object, the cursor and the buffers ever
    allocated are the same, the same addresses hold a node, with the same
    [children] and [parent], and a node outside that buffer is as it
    was. *)
Definition values_rewritten (c : option block) (z z' : zipper T) : Prop :=
  root z' = root z ∧ current z' = current z ∧
  length (mem z') = length (mem z) ∧
  (∀ q, option_Forall2 same_links (load z q) (load z' q)) ∧
  (∀ q, (∀ b i, c = Some b → q ≠ Elem b i) → load z' q = load z q).

(** What holds of every reachable state (the cursor may still point into a
    released buffer). *)
Definition sound (v0 : T) (z : zipper T) : Prop :=
  wf z ∧ current z ≠ nullptr ∧ value (root z) = v0.

End MoreZipper.

Arguments command T : clear implicits.

(** * Properties *)

Section Facts.
Context {T : Type}.
Variable grow : nat -> nat.
Implicit Types (h : heap T) (z : zipper T) (n m : node T) (p q : ptr) (b c : block) (l : list (node T)).

Lemma live_Some h b l : live h b = Some l ↔ h !! b = Some (Some l).
Proof.
  unfold live. destruct (h !! b) as [[?|]|]; split; intros; simplify_eq; done.
Qed.

Lemma live_lt h b l : live h b = Some l → b < length h.
Proof. rewrite live_Some. apply lookup_lt_Some. Qed.

Lemma live_insert_eq h b o : b < length h → live (<[b := o]> h) b = o.
Proof.
  intros Hb. unfold live. rewrite list_lookup_insert_eq by done. by destruct o.
Qed.

Lemma live_insert_ne h b c o : b ≠ c → live (<[b := o]> h) c = live h c.
Proof. intros Hne. unfold live. by rewrite list_lookup_insert_ne. Qed.

Lemma live_app_old h o c : c ≠ length h → live (h ++ [o]) c = live h c.
Proof.
  intros Hc. unfold live. destruct (decide (c < length h)).
  - by rewrite lookup_app_l.
  - rewrite !lookup_ge_None_2; [done|lia|]. rewrite length_app. simpl. lia.
Qed.

Lemma live_app_new h o : live (h ++ [o]) (length h) = o.
Proof.
  unfold live. rewrite lookup_app_r by lia. rewrite Nat.sub_diag. simpl. by destruct o.
Qed.

Lemma load_Elem z b i n :
  load z (Elem b i) = Some n ↔ ∃ l, live (mem z) b = Some l ∧ l !! i = Some n.
Proof.
  simpl. destruct (live (mem z) b) as [l|]; simpl; split.
  - eauto.
  - by intros (? & [= <-] & ?).
  - done.
  - by intros (? & ? & ?).
Qed.

(** The effect of [emplace_back], read off its definition. *)
Lemma emplace_back_Ret p new z z' :
  emplace_back grow p new z = Ret tt z' →
  ∃ n l, load z p = Some n ∧ contents (mem z) (children n) = Some l ∧
    let v := children n in
    (v_size v < v_capacity v ∧ ∃ b, v_data v = Some b ∧
       store p (Node (Vector (Some b) (S (v_size v)) (v_capacity v)) (parent n) (value n))
         (Zipper (root z) (current z) (<[b := Some (l ++ [new])]> (mem z))) = Some z')
    ∨ (¬ v_size v < v_capacity v ∧
       store p (Node (Vector (Some (length (mem z))) (S (v_size v)) (grow (v_capacity v))) (parent n) (value n))
         (Zipper (root z) (current z)
            (match v_data v with
             | Some b => <[b := None]> (mem z ++ [Some (l ++ [new])])
             | None => mem z ++ [Some (l ++ [new])]
             end)) = Some z').
Proof.
  unfold emplace_back, mbind, M_bind, deref, get_mem, defined, set_mem, assign.
  destruct (load z p) as [n|] eqn:Hn; [|done].
  destruct (contents (mem z) (children n)) as [l|] eqn:Hl; [|done].
  intros H. exists n, l. split_and!; [done..|]. simpl.
  destruct (decide (v_size (children n) < v_capacity (children n))).
  - left. split; [done|]. destruct (v_data (children n)) as [b|]; [|done].
    exists b. split; [done|]. simpl in H.
    match type of H with match ?s with _ => _ end = _ => destruct s eqn:Hs end; by simplify_eq.
  - right. split; [done|]. simpl in H.
    match type of H with match ?s with _ => _ end = _ => destruct s eqn:Hs end; by simplify_eq.
Qed.

Lemma store_load p n' z0 z' :
  store p n' z0 = Some z' →
  ∀ q, load z' q = if decide (q = p) then Some n' else load z0 q.
Proof.
  destruct p as [| |b i]; simpl; [done| |].
  - intros [= <-] q. destruct q; by repeat case_decide.
  - destruct (live (mem z0) b) as [l|] eqn:Hl; [|done]. simpl.
    destruct (l !! i) as [x|] eqn:Hi; [|done]. simpl. intros [= <-] q.
    apply live_lt in Hl as Hb. apply lookup_lt_Some in Hi as Hlt.
    destruct q as [| |c j]; simpl; [by repeat case_decide..|].
    destruct (decide (c = b)) as [->|Hc].
    + rewrite live_insert_eq by done. simpl. rewrite Hl. simpl.
      destruct (decide (j = i)) as [->|Hj].
      * rewrite decide_True by done. by rewrite list_lookup_insert_eq.
      * rewrite decide_False by congruence. by rewrite list_lookup_insert_ne.
    + rewrite live_insert_ne by done. rewrite decide_False by congruence. done.
Qed.

Lemma store_live_ne p n' z0 z' c :
  store p n' z0 = Some z' → (∀ i, p ≠ Elem c i) →
  live (mem z') c = live (mem z0) c.
Proof.
  destruct p as [| |b i]; simpl; [done| |].
  - by intros [= <-].
  - destruct (live (mem z0) b) as [l|]; [|done]. simpl.
    destruct (l !! i); [|done]. simpl. intros [= <-] Hne. simpl.
    apply live_insert_ne. intros ->. by eapply Hne.
Qed.

Lemma store_live_length p n' z0 z' c :
  store p n' z0 = Some z' →
  length <$> live (mem z') c = length <$> live (mem z0) c.
Proof.
  destruct p as [| |b i]; simpl; [done| |].
  - by intros [= <-].
  - destruct (live (mem z0) b) as [l|] eqn:Hl; [|done]. simpl.
    destruct (l !! i); [|done]. simpl. intros [= <-]. simpl.
    destruct (decide (b = c)) as [->|Hne].
    + rewrite live_insert_eq by (by eapply live_lt). rewrite Hl. simpl.
      by rewrite length_insert.
    + by rewrite live_insert_ne.
Qed.

Lemma store_is_Some p n' z0 :
  is_Some (load z0 p) → is_Some (store p n' z0).
Proof.
  destruct p as [| |b i]; simpl.
  - by intros [? ?].
  - eauto.
  - destruct (live (mem z0) b) as [l|]; simpl; [|by intros [? ?]].
    intros [x ->]. simpl. eauto.
Qed.

Lemma contents_Some h v l :
  contents h v = Some l →
  length l = v_size v ∧
  match v_data v with Some b => live h b = Some l | None => l = [] end.
Proof.
  unfold contents. destruct (v_data v) as [b|].
  - destruct (live h b) as [l'|]; simpl; [|done].
    case_decide; [|done]. by intros [= <-].
  - case_decide; [|done]. intros [= <-]. by split.
Qed.

Lemma store_current p n' z0 z' : store p n' z0 = Some z' → current z' = current z0.
Proof.
  destruct p as [| |b i]; simpl; [done| |].
  - by intros [= <-].
  - destruct (live (mem z0) b) as [l|]; [|done]. simpl.
    destruct (l !! i); [|done]. simpl. by intros [= <-].
Qed.

Lemma fmap_length_Some (o : option (list (node T))) l :
  length <$> o = length <$> Some l →
  ∃ l', o = Some l' ∧ length l' = length l.
Proof. destruct o as [l'|]; simpl; [|done]. intros [= ?]. eauto. Qed.

Lemma fmap_length_None (o : option (list (node T))) :
  length <$> o = length <$> (None : option (list (node T))) → o = None.
Proof. by destruct o. Qed.

Lemma emplace_back_effect p new z z' :
  wf z → emplace_back grow p new z = Ret tt z' →
  ∃ n l bn cp,
    load z p = Some n ∧ contents (mem z) (children n) = Some l ∧
    live (mem z') bn = Some (l ++ [new]) ∧
    (∀ i, p ≠ Elem bn i) ∧
    (∀ q0 m, load z q0 = Some m → q0 ≠ p → v_data (children m) ≠ Some bn) ∧
    (∀ c lc, live (mem z) c = Some lc → c ≠ bn →
       v_data (children n) ≠ Some c →
       ∃ lc', live (mem z') c = Some lc' ∧ length lc' = length lc) ∧
    current z' = current z ∧
    let n' := Node (Vector (Some bn) (S (v_size (children n))) cp)
                   (parent n) (value n) in
    load z' p = Some n' ∧
    load z' (Elem bn (length l)) = Some new ∧
    ∀ q m, load z' q = Some m →
      (q = p ∧ m = n') ∨ (q = Elem bn (length l) ∧ m = new) ∨
      (∃ q0, q0 ≠ p ∧ load z q0 = Some m ∧ carried z z' n bn q q0).
Proof.
  intros Hwf Hrun.
  destruct (emplace_back_Ret _ _ _ _ Hrun) as (n & l & Hn & Hl & Hcase).
  destruct (contents_Some _ _ _ Hl) as [Hlen Hlive].
  simpl in Hcase. destruct Hcase as [(Hlt & b & Hb & Hst)|(Hge & Hst)].
  - (* constructed in place *)
    rewrite Hb in Hlive.
    assert (Hp : ∀ i, p ≠ Elem b i).
    { intros i ->. by eapply (wf_own z Hwf). }
    pose proof (live_lt _ _ _ Hlive) as Hblt.
    pose proof (store_load _ _ _ _ Hst) as Hld.
    assert (Hnew : live (mem z') b = Some (l ++ [new])).
    { rewrite (store_live_ne _ _ _ _ b Hst Hp). simpl. by apply live_insert_eq. }
    exists n, l, b, (v_capacity (children n)).
    split_and!; try done.
    + intros q0 m Hm Hq0 Hd. apply Hq0. by eapply (wf_inj z Hwf).
    + intros c lc Hc Hcb _.
      apply fmap_length_Some. rewrite (store_live_length _ _ _ _ c Hst). simpl.
      rewrite live_insert_ne by done. by rewrite Hc.
    + by rewrite (store_current _ _ _ _ Hst).
    + cbv zeta. split_and!.
    { rewrite Hld. by rewrite decide_True. }
    { simpl. rewrite Hnew. simpl.
      by rewrite lookup_app_r, Nat.sub_diag by lia. }
    intros q m. rewrite Hld. case_decide as Hq; [intros [= <-]; by left|].
      intros Hm. right. destruct q as [| |c j]; [done| |].
      * right. exists Root. by split_and!; [..|left].
      * simpl in Hm. destruct (decide (c = b)) as [->|Hc].
        -- rewrite live_insert_eq in Hm by done. simpl in Hm.
           destruct (decide (j < length l)).
           ++ rewrite lookup_app_l in Hm by done. right. exists (Elem b j).
              split_and!; [done| |by left]. simpl. by rewrite Hlive.
           ++ apply lookup_lt_Some in Hm as Hj. rewrite length_app in Hj.
              simpl in Hj. assert (j = length l) as -> by lia.
              rewrite lookup_app_r, Nat.sub_diag in Hm by lia. left.
              simpl in Hm. split; congruence.
        -- rewrite live_insert_ne in Hm by done. right. exists (Elem c j).
           by split_and!; [..|left].
  - (* moved to a larger buffer *)
    set (bn := length (mem z)) in *.
    assert (Hp : ∀ i, p ≠ Elem bn i).
    { intros i ->. apply load_Elem in Hn as (? & Hx & _).
      apply live_lt in Hx. unfold bn in Hx. lia. }
    assert (Hold : ∀ bo, v_data (children n) = Some bo → bo < bn).
    { intros bo Hbo. rewrite Hbo in Hlive. by eapply live_lt. }
    pose proof (store_load _ _ _ _ Hst) as Hld.
    pose proof (store_current _ _ _ _ Hst) as Hcur.
    set (h0 := match v_data (children n) with
               | Some b => <[b:=None]> (mem z ++ [Some (l ++ [new])])
               | None => mem z ++ [Some (l ++ [new])]
               end) in *.
    assert (Hh0new : live h0 bn = Some (l ++ [new])).
    { unfold h0. destruct (v_data (children n)) as [bo|] eqn:Hbo.
      - specialize (Hold _ eq_refl). rewrite live_insert_ne by lia.
        apply live_app_new.
      - apply live_app_new. }
    assert (Hh0old : ∀ c, c ≠ bn → v_data (children n) ≠ Some c →
                          live h0 c = live (mem z) c).
    { intros c Hc Hd. unfold h0. destruct (v_data (children n)) as [bo|].
      - rewrite live_insert_ne by congruence. by apply live_app_old.
      - by apply live_app_old. }
    assert (Hh0free : ∀ bo, v_data (children n) = Some bo → live h0 bo = None).
    { intros bo Hbo. unfold h0. rewrite Hbo. apply live_insert_eq.
      rewrite length_app. specialize (Hold _ Hbo). unfold bn in Hold. lia. }
    assert (Hfresh : ∀ q0 m, load z q0 = Some m → v_data (children m) ≠ Some bn).
    { intros q0 m Hm Hd. destruct (wf_vec z Hwf _ _ Hm) as [[lm Hlm] _].
      apply contents_Some in Hlm as [_ Hlm]. rewrite Hd in Hlm.
      apply live_lt in Hlm. unfold bn in Hlm. lia. }
    assert (Hnew : live (mem z') bn = Some (l ++ [new])).
    { by rewrite (store_live_ne _ _ _ _ bn Hst Hp). }
    exists n, l, bn, (grow (v_capacity (children n))).
    split_and!; try done.
    + intros q0 m Hm _. by eapply Hfresh.
    + intros c lc Hc Hcb Hd.
      apply fmap_length_Some. rewrite (store_live_length _ _ _ _ c Hst). simpl.
      rewrite Hh0old by done. by rewrite Hc.
    + cbv zeta. split_and!.
    { rewrite Hld. by rewrite decide_True. }
    { simpl. rewrite Hnew. simpl.
      by rewrite lookup_app_r, Nat.sub_diag by lia. }
    intros q m. rewrite Hld. case_decide as Hq; [intros [= <-]; by left|].
      intros Hm. right. destruct q as [| |c j]; [done| |].
      * right. exists Root. by split_and!; [..|left].
      * simpl in Hm. destruct (decide (c = bn)) as [->|Hc].
        -- rewrite Hh0new in Hm. simpl in Hm.
           destruct (decide (j < length l)).
           ++ rewrite lookup_app_l in Hm by done. right.
              destruct (v_data (children n)) as [bo|] eqn:Hbo.
              ** exists (Elem bo j). split_and!.
                 --- intros <-. by eapply (wf_own z Hwf).
                 --- simpl. by rewrite Hlive.
                 --- right. exists bo, j. split_and!; try done.
                     apply fmap_length_None.
                     rewrite (store_live_length _ _ _ _ bo Hst). simpl.
                     by rewrite Hh0free.
              ** subst l. simpl in *. lia.
           ++ apply lookup_lt_Some in Hm as Hj. rewrite length_app in Hj.
              simpl in Hj. assert (j = length l) as -> by lia.
              rewrite lookup_app_r, Nat.sub_diag in Hm by lia. left.
              simpl in Hm. split; congruence.
        -- destruct (decide (v_data (children n) = Some c)) as [Hd|Hd].
           ++ by rewrite (Hh0free _ Hd) in Hm.
           ++ rewrite Hh0old in Hm by done. right. exists (Elem c j).
              by split_and!; [..|left].
Qed.

Lemma store_length p n' z0 z' :
  store p n' z0 = Some z' → length (mem z') = length (mem z0).
Proof.
  destruct p as [| |b i]; simpl; [done| |].
  - by intros [= <-].
  - destruct (live (mem z0) b) as [l|]; [|done]. simpl.
    destruct (l !! i); [|done]. simpl. intros [= <-]. simpl.
    by rewrite length_insert.
Qed.

(** The buffers after [emplace_back]: the owner's buffer [bn] is the one
    it had or a new one, and no other buffer has appeared. *)
Lemma emplace_back_blocks p new z z' n n' bn :
  emplace_back grow p new z = Ret tt z' →
  load z p = Some n → load z' p = Some n' →
  v_data (children n') = Some bn →
  ((v_data (children n) = Some bn ∧ length (mem z') = length (mem z)) ∨
   (bn = length (mem z) ∧ length (mem z') = S (length (mem z)))) ∧
  (∀ b l', live (mem z') b = Some l' → b = bn ∨ is_Some (live (mem z) b)).
Proof.
  intros Hrun Hn Hn' Hbn.
  destruct (emplace_back_Ret _ _ _ _ Hrun) as (n0 & l & Hn0 & Hl & Hcase).
  rewrite Hn in Hn0. injection Hn0 as <-.
  simpl in Hcase. destruct Hcase as [(Hlt & b & Hb & Hst)|(Hge & Hst)];
    pose proof (store_load _ _ _ _ Hst p) as Hld;
    rewrite decide_True, Hn' in Hld by done; injection Hld as ->;
    simpl in Hbn; injection Hbn as <-;
    pose proof (store_length _ _ _ _ Hst) as Hlen; simpl in Hlen.
  - split.
    + left. split; [done|]. by rewrite Hlen, length_insert.
    + intros c l' Hc. destruct (decide (c = b)) as [->|Hne]; [by left|right].
      assert (length <$> live (mem z') c = length <$> Some l') as Hc'
        by (by rewrite Hc).
      rewrite (store_live_length _ _ _ _ c Hst) in Hc'. simpl in Hc'.
      rewrite live_insert_ne in Hc' by done.
      destruct (fmap_length_Some _ _ Hc') as (? & -> & _). eauto.
  - assert (Hlen' : length (mem z') = S (length (mem z))).
    { rewrite Hlen. destruct (v_data (children n));
        rewrite ?length_insert, length_app; simpl; lia. }
    split; [by right|].
    intros c l' Hc.
    destruct (decide (c = length (mem z))) as [->|Hne]; [by left|right].
    assert (length <$> live (mem z') c = length <$> Some l') as Hc'
      by (by rewrite Hc).
    rewrite (store_live_length _ _ _ _ c Hst) in Hc'. simpl in Hc'.
    apply contents_Some in Hl as [_ Hl].
    destruct (v_data (children n)) as [bo|].
    + destruct (decide (bo = c)) as [->|Hbo].
      * rewrite live_insert_eq in Hc'; [done|].
        apply live_lt in Hl. rewrite length_app. lia.
      * rewrite live_insert_ne, live_app_old in Hc' by done.
        destruct (fmap_length_Some _ _ Hc') as (? & -> & _). eauto.
    + rewrite live_app_old in Hc' by done.
      destruct (fmap_length_Some _ _ Hc') as (? & -> & _). eauto.
Qed.

Lemma carried_Elem z z' n bn b i q0 :
  carried z z' n bn (Elem b i) q0 → ∃ b0 i0, q0 = Elem b0 i0.
Proof. intros [<-|(bo & j & _ & _ & _ & ->)]; eauto. Qed.

Lemma carried_inj z z' n bn q1 q2 q0 :
  is_Some (load z' q1) → is_Some (load z' q2) →
  carried z z' n bn q1 q0 → carried z z' n bn q2 q0 → q1 = q2.
Proof.
  intros H1 H2 [E1|(bo & j & Hbo & Hfree & E1 & E0)]
               [E2|(bo' & j' & Hbo' & Hfree' & E2 & E0')]; subst.
  - done.
  - simpl in H1. rewrite Hfree' in H1. by destruct H1.
  - simpl in H2. rewrite Hfree in H2. by destruct H2.
  - by simplify_eq.
Qed.

Lemma emplace_back_wf p new z z' :
  wf z → children new = empty_vector → parent new ≠ nullptr →
  emplace_back grow p new z = Ret tt z' → wf z'.
Proof.
  intros Hwf Hnewv Hnewp Hrun.
  destruct (emplace_back_effect _ _ _ _ Hwf Hrun)
    as (n & l & bn & cp & Hn & Hl & Hbn & Hp & Hfresh & Hkeep & _ & Hside).
  cbv zeta in Hside. destruct Hside as (Hn' & _ & Hcls).
  destruct (contents_Some _ _ _ Hl) as [Hlen _].
  split.
  - destruct (Hcls Root (root z') eq_refl)
      as [[<- ->]|[[? _]|(q0 & _ & Hq0 & [<-|(? & ? & _ & _ & ? & _)])]];
      try done; simpl.
    + simpl in Hn. simplify_eq. apply (wf_root z Hwf).
    + simpl in Hq0. injection Hq0 as <-. apply (wf_root z Hwf).
  - intros b i m Hm.
    destruct (Hcls _ _ Hm) as [[<- ->]|[[_ ->]|(q0 & _ & Hq0 & Hc)]]; simpl.
    + by eapply (wf_elem z Hwf).
    + done.
    + destruct (carried_Elem _ _ _ _ _ _ _ Hc) as (b0 & i0 & ->).
      by eapply (wf_elem z Hwf).
  - intros q m Hm.
    destruct (Hcls _ _ Hm) as [[-> ->]|[[_ ->]|(q0 & Hne & Hq0 & _)]]; simpl.
    + split; [|done]. unfold contents. simpl. rewrite Hbn. simpl.
      rewrite decide_True; [done|]. rewrite length_app. simpl. lia.
    + rewrite Hnewv. by split.
    + destruct (wf_vec z Hwf _ _ Hq0) as [[lm Hlm] Hcap]. split; [|done].
      destruct (contents_Some _ _ _ Hlm) as [Hlenm Hlivem].
      unfold contents in *. destruct (v_data (children m)) as [c|] eqn:Hc.
      * destruct (Hkeep c lm Hlivem) as (lc' & -> & Hlc').
        -- intros ->. by eapply Hfresh.
        -- intros Hd. apply Hne. by eapply (wf_inj z Hwf).
        -- simpl. rewrite decide_True by congruence. done.
      * done.
  - intros b i m Hm.
    destruct (Hcls _ _ Hm) as [[<- ->]|[[_ ->]|(q0 & Hne & Hq0 & Hc)]]; simpl.
    + intros [= ->]. by eapply Hp.
    + by rewrite Hnewv.
    + destruct Hc as [<-|(bo & j & _ & _ & [= -> ->] & ->)].
      * by eapply (wf_own z Hwf).
      * by eapply Hfresh.
  - intros q1 q2 m1 m2 c Hm1 Hm2 Hc1 Hc2.
    destruct (Hcls _ _ Hm1) as [[-> ->]|[[_ ->]|(q01 & Hne1 & Hq01 & Hca1)]];
      [..|destruct (Hcls _ _ Hm2) as [[-> ->]|[[_ ->]|(q02 & Hne2 & Hq02 & Hca2)]]].
    + simpl in Hc1. simplify_eq.
      destruct (Hcls _ _ Hm2) as [[-> ->]|[[_ ->]|(q02 & Hne2 & Hq02 & _)]].
      * done.
      * by rewrite Hnewv in Hc2.
      * by destruct (Hfresh _ _ Hq02 Hne2).
    + by rewrite Hnewv in Hc1.
    + simpl in Hc2. simplify_eq. by destruct (Hfresh _ _ Hq01 Hne1).
    + by rewrite Hnewv in Hc2.
    + assert (q01 = q02) as -> by (by eapply (wf_inj z Hwf)).
      by eapply carried_inj.
  - destruct (wf_layers z Hwf) as (dp & Hd1 & Hd2 & Hd3).
    destruct (emplace_back_blocks _ _ _ _ _ _ bn Hrun Hn Hn' eq_refl)
      as [Hwhich Hlive'].
    set (top := match p with Elem b0 _ => S (dp b0) | _ => 0 end).
    assert (Hown : ∀ c, v_data (children n) = Some c → dp c = top).
    { intros c Hc. unfold top. destruct p as [| |b0 i0]; [done| |].
      - simpl in Hn. injection Hn as <-. by apply Hd1.
      - by eapply Hd2. }
    assert (Hsame : ∀ b, is_Some (live (mem z) b) →
                         (if decide (b = bn) then top else dp b) = dp b).
    { intros b [lb Hb]. case_decide as Hbb; [|done]. subst b.
      destruct Hwhich as [[Hd _]|[Hfr _]].
      - symmetry. by apply Hown.
      - apply live_lt in Hb. lia. }
    exists (λ b, if decide (b = bn) then top else dp b). split_and!.
    + intros c Hc.
      destruct (Hcls Root (root z') eq_refl)
        as [[<- Hr]|[[? _]|(q0 & Hne & Hq0 & Hca)]]; [|done|].
      * rewrite Hr in Hc. simpl in Hc. injection Hc as <-.
        by rewrite decide_True.
      * destruct Hca as [<-|(? & ? & _ & _ & ? & _)]; [|done].
        simpl in Hq0. injection Hq0 as Hq0. rewrite <- Hq0 in Hc.
        rewrite decide_False.
        -- by apply Hd1.
        -- intros ->. by apply (Hfresh Root (root z) eq_refl Hne).
    + intros b i m c Hm Hc.
      destruct (Hcls _ _ Hm) as [[<- ->]|[[_ ->]|(q0 & Hne & Hq0 & Hca)]].
      * simpl in Hc. injection Hc as <-. rewrite decide_True by done.
        rewrite decide_False; [done|]. intros ->. by eapply Hp.
      * by rewrite Hnewv in Hc.
      * assert (c ≠ bn) as Hcbn.
        { intros ->. by apply (Hfresh _ _ Hq0 Hne). }
        rewrite (decide_False _ _ Hcbn).
        destruct Hca as [<-|(bo & j & Hbo & _ & [= -> ->] & ->)].
        -- rewrite Hsame.
           ++ by eapply Hd2.
           ++ apply load_Elem in Hq0 as (? & -> & _). eauto.
        -- rewrite decide_True by done. rewrite <- (Hown _ Hbo).
           by eapply Hd2.
    + intros b l' Hb. destruct (Hlive' b l' Hb) as [->|Hold].
      * rewrite decide_True by done.
        destruct Hwhich as [[Hd Hlen']|[Hfr Hlen']].
        -- rewrite <- (Hown _ Hd), Hlen'.
           apply contents_Some in Hl as [_ Hl]. rewrite Hd in Hl.
           by eapply Hd3.
        -- rewrite Hlen'. unfold top. destruct p as [| |b0 i0]; [lia..|].
           apply load_Elem in Hn as (l0 & Hl0 & _).
           specialize (Hd3 _ _ Hl0). lia.
      * rewrite (Hsame _ Hold). destruct Hold as [lb Hlb].
        specialize (Hd3 _ _ Hlb). destruct Hwhich as [[_ ->]|[_ ->]]; lia.
Qed.

Lemma emplace_back_progress p new z n :
  wf z → load z p = Some n → ∃ z', emplace_back grow p new z = Ret tt z'.
Proof.
  intros Hwf Hn. destruct (wf_vec z Hwf _ _ Hn) as [[l Hl] Hcap].
  destruct (contents_Some _ _ _ Hl) as [Hlen Hlive].
  unfold emplace_back, mbind, M_bind, deref, get_mem, defined, set_mem, assign.
  rewrite Hn, Hl. case_decide as Hlt.
  - destruct (v_data (children n)) as [b|] eqn:Hb.
    + simpl.
      match goal with |- context [store p ?n' ?z0] =>
        destruct (store_is_Some p n' z0) as [z' ->]; [|by eauto] end.
      destruct p as [| |bp ip]; [done|by eauto|].
      apply load_Elem in Hn as Hn'. destruct Hn' as (lp & Hlp & Hip).
      simpl. rewrite live_insert_ne.
      * rewrite Hlp. simpl. eauto.
      * intros ->. by eapply (wf_own z Hwf).
    + specialize (Hcap eq_refl). lia.
  - simpl.
    match goal with |- context [store p ?n' ?z0] =>
      destruct (store_is_Some p n' z0) as [z' ->]; [|by eauto] end.
    destruct p as [| |bp ip]; [done|by eauto|].
    apply load_Elem in Hn as Hn'. destruct Hn' as (lp & Hlp & Hip).
    pose proof (live_lt _ _ _ Hlp) as Hbp.
    simpl. destruct (v_data (children n)) as [b|] eqn:Hb.
    + rewrite live_insert_ne.
      * rewrite live_app_old, Hlp by lia. simpl. eauto.
      * intros ->. by eapply (wf_own z Hwf).
    + rewrite live_app_old, Hlp by lia. simpl. eauto.
Qed.

(** *** The invariant along the operations *)

Lemma load_ext z z' p :
  root z' = root z → mem z' = mem z → load z' p = load z p.
Proof. intros Hr Hm. destruct p; simpl; [done|by rewrite Hr|by rewrite Hm]. Qed.

Lemma wf_ext z z' : root z' = root z → mem z' = mem z → wf z → wf z'.
Proof.
  intros Hr Hm [H1 H2 H3 H4 H5 (dp & Hd1 & Hd2 & Hd3)].
  split; rewrite ?Hr, ?Hm; try done.
  1-4: intros *; rewrite ?(load_ext z z') by done; eauto.
  exists dp. split_and!; rewrite ?Hr, ?Hm; try done.
  intros *. rewrite (load_ext z z') by done. eauto.
Qed.

Lemma wf_zipper_init (v : T) : wf (zipper_init v).
Proof.
  split; try done.
  - intros [| |b i] n; simpl; [done| |done]. intros [= <-]. by split.
  - by intros [| |? ?] [| |? ?] n m c.
  - exists (λ _, 0). by split_and!.
Qed.

Lemma focused_not_null z n : focused z n → current z ≠ nullptr.
Proof. unfold focused. by destruct (current z). Qed.

Lemma entre_new_branch_wf v z z' :
  wf z → entre_new_branch grow v z = Ret tt z' → wf z'.
Proof.
  intros Hwf. unfold entre_new_branch, emplace_branch, mbind, M_bind, get_current.
  destruct (emplace_back grow (current z) _ z) as [[] z1| |] eqn:Hrun; [|done..].
  assert (wf z1) as Hwf1.
  { refine (emplace_back_wf _ _ _ _ Hwf _ _ Hrun); [done|]. simpl.
    apply emplace_back_Ret in Hrun as (n & _ & Hn & _). by eapply focused_not_null. }
  unfold deref, set_current. destruct (load z1 (current z)); [|done].
  intros [= <-]. by apply (wf_ext z1).
Qed.

(** *** Moving the cursor *)

Lemma can_step_back_focused z n :
  focused z n → can_step_back z = Ret (bool_decide (parent n ≠ nullptr)) z.
Proof.
  unfold focused, can_step_back, mbind, M_bind, get_current, deref.
  by intros ->.
Qed.

Lemma focused_root_or_elem z n :
  wf z → focused z n →
  (current z = Root ∧ parent n = nullptr) ∨
  (current z ≠ Root ∧ parent n ≠ nullptr).
Proof.
  intros Hwf Hn. unfold focused in Hn. destruct (current z) as [| |b i] eqn:Hc.
  - done.
  - left. split; [done|]. simpl in Hn. injection Hn as <-. apply (wf_root z Hwf).
  - right. split; [done|]. by eapply (wf_elem z Hwf).
Qed.

(** On a well-formed store with the cursor on a live node,
    [can_step_back] is true exactly when the cursor is not the root;
    [step_back] throws the "cannot step back" error exactly when the cursor
    is the root, and then leaves the state as it was; otherwise it returns
    and the cursor is what the [parent] member of the node it was on
    holds, be it the address of a live node or not. *)
Theorem step_back_fails_exactly_at_root z n :
  wf z → focused z n →
  can_step_back z = Ret (bool_decide (current z ≠ Root)) z ∧
  (current z = Root → step_back z = Throw cannot_step_back z) ∧
  (current z ≠ Root →
     parent n ≠ nullptr ∧
     step_back z = Ret tt (Zipper (root z) (parent n) (mem z))) ∧
  (∀ e z', step_back z = Throw e z' ↔
     current z = Root ∧ e = cannot_step_back ∧ z' = z).
Proof.
  intros Hwf Hn.
  assert (Hsb : step_back z =
    if bool_decide (parent n ≠ nullptr)
    then Ret tt (Zipper (root z) (parent n) (mem z))
    else Throw cannot_step_back z).
  { unfold step_back, mbind, M_bind. rewrite (can_step_back_focused z n Hn).
    case_bool_decide; simpl; [|done].
    unfold get_current, deref, set_current. by rewrite Hn. }
  rewrite (can_step_back_focused z n Hn), Hsb.
  destruct (focused_root_or_elem z n Hwf Hn) as [[Hc Hp]|[Hc Hp]].
  - rewrite !bool_decide_eq_false_2 by (by intros ?).
    split_and!; [done|done|done|]. intros e z'. split.
    + by intros [= <- <-].
    + by intros (_ & -> & ->).
  - rewrite !bool_decide_eq_true_2 by done.
    split_and!; [done|done|done|]. intros e z'. split; [done|]. by intros [? _].
Qed.


(** C10: for a negative [n], [step_back n] returns without an error and
    leaves the whole state as it was, as for [n = 0]. *)
Theorem step_back_negative_is_noop z (n : Z) :
  (n < 0)%Z → step_back_n n z = Ret tt z ∧ step_back_n 0 z = Ret tt z.
Proof.
  intros Hn. unfold step_back_n, for_int.
  replace (Z.to_nat (n - 0)) with 0 by lia. done.
Qed.


(** *** Growing the tree at the cursor *)

Lemma child_values_contents z n l :
  contents (mem z) (children n) = Some l → child_values z n = value <$> l.
Proof. unfold child_values. by intros ->. Qed.

(** What [entre_new_branch] does on a well-formed store. *)
Lemma entre_new_branch_focused v z n :
  wf z → focused z n →
  ∃ z1 n1 l,
    entre_new_branch grow v z = Ret tt z1 ∧ wf z1 ∧
    contents (mem z) (children n) = Some l ∧
    focused z1 (Node empty_vector (current z) v) ∧
    load z1 (current z) = Some n1 ∧
    parent n1 = parent n ∧ value n1 = value n ∧
    contents (mem z1) (children n1) =
      Some (l ++ [Node empty_vector (current z) v]).
Proof.
  intros Hwf Hn.
  destruct (emplace_back_progress (current z)
              (Node empty_vector (current z) v) z n Hwf Hn) as [z0 Hrun].
  destruct (emplace_back_effect _ _ _ _ Hwf Hrun)
    as (n0 & l & bn & cp & Hn0 & Hl & Hbn & _ & _ & _ & Hcur & Hside).
  cbv zeta in Hside. destruct Hside as (Hn' & Hnew & _).
  unfold focused in Hn. rewrite Hn in Hn0. injection Hn0 as <-.
  destruct (contents_Some _ _ _ Hl) as [Hlen _].
  assert (Hrun1 : entre_new_branch grow v z =
    Ret tt (Zipper (root z0) (Elem bn (length l)) (mem z0))).
  { unfold entre_new_branch, emplace_branch, mbind, M_bind, get_current.
    rewrite Hrun. unfold deref, set_current. rewrite Hn'.
    unfold back, at_index. simpl. by rewrite Hlen, Nat.sub_0_r. }
  eexists _, _, l. split_and!; [exact Hrun1| |done|..].
  - by eapply entre_new_branch_wf.
  - unfold focused. by rewrite (load_ext z0).
  - by rewrite (load_ext z0).
  - done.
  - done.
  - unfold contents. simpl. rewrite Hbn. simpl.
    rewrite decide_True; [done|]. rewrite length_app. simpl. lia.
Qed.

(** C6: on a well-formed store with the cursor on a live node,
    [entre_new_branch v] followed by [step_back] returns, the cursor is
    back on the node it was on (same address, same value, same parent
    pointer), and that node has the children it had, followed by one more
    child with value [v]. *)
Theorem enter_new_branch_then_step_back v z n :
  wf z → focused z n →
  ∃ z1 z2 n2,
    entre_new_branch grow v z = Ret tt z1 ∧
    step_back z1 = Ret tt z2 ∧
    wf z2 ∧
    current z2 = current z ∧
    focused z2 n2 ∧ value n2 = value n ∧ parent n2 = parent n ∧
    child_values z2 n2 = child_values z n ++ [v] ∧
    last (child_values z2 n2) = Some v.
Proof.
  intros Hwf Hn.
  destruct (entre_new_branch_focused v z n Hwf Hn)
    as (z1 & n1 & l & Hrun & Hwf1 & Hl & Hfoc & Hn1 & Hp & Hv & Hl1).
  assert (Hback : step_back z1 =
    Ret tt (Zipper (root z1) (current z) (mem z1))).
  { unfold step_back, mbind, M_bind.
    rewrite (can_step_back_focused z1 _ Hfoc). simpl.
    rewrite bool_decide_eq_true_2 by (by eapply focused_not_null). simpl.
    unfold get_current, deref, set_current. by rewrite Hfoc. }
  exists z1, (Zipper (root z1) (current z) (mem z1)), n1.
  assert (Hvals : child_values (Zipper (root z1) (current z) (mem z1)) n1 =
                  child_values z n ++ [v]).
  { rewrite (child_values_contents _ _ _ Hl).
    unfold child_values. simpl. rewrite Hl1. by rewrite fmap_app. }
  split_and!; try done.
  - by apply (wf_ext z1).
  - rewrite Hvals. apply last_snoc.
Qed.

(** *** Every operation keeps the store well-formed *)

Lemma preserves_wf_ret {A : Type} (a : A) : preserves_wf (mret a : M T A).
Proof. intros z z' Hwf [= <-]. done. Qed.

Lemma preserves_wf_bind {A B : Type} (m : M T A) (k : A → M T B) :
  preserves_wf m → (∀ a, preserves_wf (k a)) → preserves_wf (m ≫= k).
Proof.
  intros Hm Hk z z' Hwf. unfold mbind, M_bind.
  specialize (Hm z). destruct (m z) as [a z1|e z1|]; simpl.
  - apply Hk. by apply Hm.
  - intros [= <-]. by apply Hm.
  - done.
Qed.

Lemma preserves_wf_same_store {A : Type} (m : M T A) :
  (∀ z z', final_state (m z) = Some z' → root z' = root z ∧ mem z' = mem z) →
  preserves_wf m.
Proof.
  intros Hm z z' Hwf Hz. destruct (Hm z z' Hz). by apply (wf_ext z).
Qed.

Lemma emplace_back_never_throws p new z e z' :
  emplace_back grow p new z ≠ Throw e z'.
Proof.
  unfold emplace_back, mbind, M_bind, deref, get_mem, defined, set_mem, assign.
  repeat (first [case_match | case_decide]; simpl; try done).
Qed.

Lemma preserves_wf_step_back : preserves_wf (step_back (T:=T)).
Proof.
  apply preserves_wf_same_store. intros z z'.
  unfold step_back, can_step_back, mbind, M_bind, get_current, deref,
    set_current, throw.
  destruct (load z (current z)) eqn:Hl; simpl; [|done].
  case_bool_decide; simpl; rewrite ?Hl; simpl; by intros [= <-].
Qed.

Lemma preserves_wf_step_forward i : preserves_wf (step_forward (T:=T) i).
Proof.
  apply preserves_wf_same_store. intros z z'.
  unfold step_forward, mbind, M_bind, get_current, deref, set_current, throw.
  case_decide; simpl; [by intros [= <-]|].
  destruct (load z (current z)); simpl; [|done].
  case_decide; simpl; by intros [= <-].
Qed.

Lemma preserves_wf_entre_new_branch (v : T) :
  preserves_wf (entre_new_branch grow v).
Proof.
  intros z z' Hwf Hz.
  destruct (entre_new_branch grow v z) as [[] z1|e z1|] eqn:Hrun;
    simpl in Hz; [| |done]; injection Hz as <-.
  - by eapply entre_new_branch_wf.
  - exfalso. revert Hrun.
    unfold entre_new_branch, emplace_branch, mbind, M_bind, get_current.
    pose proof (emplace_back_never_throws (current z)
                  (Node empty_vector (current z) v) z) as Hnt.
    destruct (emplace_back grow (current z) _ z); [|by destruct (Hnt e0 z0)|done].
    unfold deref, set_current. by destruct (load _ _).
Qed.

Lemma preserves_wf_for_loop k i (body : Z → M T unit) :
  (∀ j, preserves_wf (body j)) → preserves_wf (for_loop k i body).
Proof.
  intros Hbody. revert i. induction k as [|k IH]; intros i; simpl.
  - apply preserves_wf_ret.
  - apply preserves_wf_bind; [apply Hbody|]. intros _. apply IH.
Qed.

Lemma preserves_wf_step_back_n (k : Z) : preserves_wf (step_back_n (T:=T) k).
Proof. apply preserves_wf_for_loop. intros _. apply preserves_wf_step_back. Qed.

(** *** Printing *)

Section Printing.

Variable show : T → string.

Lemma append_assoc (a b c : string) : (a +:+ b) +:+ c = a +:+ (b +:+ c).
Proof.
  induction a as [|x a IH]; [done|].
  change (String x ((a +:+ b) +:+ c) = String x (a +:+ (b +:+ c))).
  by rewrite IH.
Qed.

Lemma append_nil_r (a : string) : a +:+ "" = a.
Proof.
  induction a as [|x a IH]; [done|].
  change (String x (a +:+ "") = String x a). by rewrite IH.
Qed.

Lemma foldr_append_app (l1 l2 : list string) :
  foldr String.append "" (l1 ++ l2) =
  foldr String.append "" l1 +:+ foldr String.append "" l2.
Proof.
  induction l1 as [|x l1 IH]; simpl; [done|]. by rewrite IH, append_assoc.
Qed.

Lemma bind_Some_l {A B : Type} (x : A) (f : A → option B) : Some x ≫= f = f x.
Proof. done. Qed.

Lemma int_arith_in_range (r : Z) :
  (INT_MIN ≤ r ≤ INT_MAX)%Z → int_arith r = Some r.
Proof. intros Hr. unfold int_arith. by rewrite decide_True. Qed.

Lemma put_setw_0 (text : string) : put_setw 0 text = text.
Proof. done. Qed.

Lemma render_Tree d v ts :
  render show d (Tree v ts) =
  line show (d, v) +:+
  foldr String.append "" (line show <$> mjoin (preorder (S d) <$> ts)).
Proof. done. Qed.

Lemma Forall2_impl_elem {A B : Type} (P Q : A → B → Prop) (xs : list A)
    (ys : list B) :
  Forall2 P xs ys → (∀ x y, y ∈ ys → P x y → Q x y) → Forall2 Q xs ys.
Proof.
  induction 1 as [|x y xs ys Hxy _ IH]; intros HPQ; constructor.
  - apply HPQ; [left|done].
  - apply IH. intros x' y' Hy'. apply HPQ. by right.
Qed.

Lemma height_child (t : tree T) ts :
  t ∈ ts → height t ≤ foldr Nat.max 0 (height <$> ts).
Proof.
  induction 1 as [t ts|t t' ts _ IH]; rewrite fmap_cons; simpl.
  - apply Nat.le_max_l.
  - etrans; [exact IH|apply Nat.le_max_r].
Qed.

(** The children loop of [printTree], given what each call does. *)
Lemma for_each_defined_render fuel h d (l : list (node T)) ts :
  Forall2 (λ (ch : node T) t, ∀ out,
    node_printTree show fuel h ch (Z.of_nat (S d)) out =
      Some (out +:+ render show (S d) t)) l ts →
  (Z.of_nat d + 1 ≤ INT_MAX)%Z →
  ∀ out,
    for_each_defined
      (λ ch out, d' ← int_arith (Z.of_nat d + 1);
                 node_printTree show fuel h ch d' out) l out =
    Some (out +:+
          foldr String.append "" (line show <$> mjoin (preorder (S d) <$> ts))).
Proof.
  intros Hall Hd.
  set (f := λ (ch : node T) (out : string),
              d' ← int_arith (Z.of_nat d + 1);
              node_printTree show fuel h ch d' out).
  assert (Hf : ∀ ch out,
    f ch out = node_printTree show fuel h ch (Z.of_nat (S d)) out).
  { intros ch out. unfold f.
    rewrite int_arith_in_range by (unfold INT_MIN; lia). rewrite bind_Some_l.
    f_equal. lia. }
  clearbody f.
  induction Hall as [|ch t l ts Hc _ IH]; intros out; simpl.
  - by rewrite append_nil_r.
  - rewrite Hf, Hc, bind_Some_l, IH.
    by rewrite fmap_app, foldr_append_app, append_assoc.
Qed.

Lemma node_printTree_S fuel h n depth out :
  node_printTree show (S fuel) h n depth out =
  w ← int_arith (depth * 4);
  l ← contents h (children n);
  for_each_defined
    (λ ch out, d ← int_arith (depth + 1); node_printTree show fuel h ch d out)
    l (out +:+ put_setw w (show (value n)) +:+ endl).
Proof. done. Qed.

(** [node::printTree] writes the rendering of the tree below the node. *)
Lemma node_printTree_render k : ∀ fuel h n t d out,
  tree_of k h n = Some t → k ≤ fuel →
  (4 * (Z.of_nat d + Z.of_nat (height t)) ≤ INT_MAX)%Z →
  node_printTree show fuel h n (Z.of_nat d) out =
    Some (out +:+ render show d t).
Proof.
  induction k as [|k IH]; intros fuel h n t d out Ht Hk Hd; [done|].
  destruct fuel as [|fuel]; [lia|]. simpl in Ht.
  destruct (contents h (children n)) as [l|] eqn:Hl; [|done]. simpl in Ht.
  destruct (mapM (tree_of k h) l) as [ts|] eqn:Hts; [|done]. simpl in Ht.
  injection Ht as <-. simpl in Hd.
  rewrite node_printTree_S.
  rewrite (int_arith_in_range (Z.of_nat d * 4)) by (unfold INT_MIN; lia).
  rewrite bind_Some_l, Hl, bind_Some_l.
  rewrite for_each_defined_render with (ts := ts).
  - rewrite render_Tree. unfold line at 2. simpl.
    replace (Z.of_nat (d * 4)) with (Z.of_nat d * 4)%Z by lia.
    by rewrite !append_assoc.
  - apply mapM_Some_1 in Hts.
    eapply Forall2_impl_elem; [exact Hts|]. simpl.
    intros ch t' Hin Ht' out'. apply IH; [done|lia|].
    apply height_child in Hin. lia.
  - lia.
Qed.

Lemma tree_of_height k : ∀ h n t, tree_of k h n = Some t → height t ≤ k.
Proof.
  induction k as [|k IH]; intros h n t Ht; [done|]. simpl in Ht.
  destruct (contents h (children n)) as [l|]; [|done]. simpl in Ht.
  destruct (mapM (tree_of k h) l) as [ts|] eqn:Hts; [|done].
  injection Ht as <-. simpl. apply le_n_S.
  apply mapM_Some_1 in Hts.
  induction Hts as [|ch t l' ts' Hc _ IH2]; [simpl; lia|].
  rewrite fmap_cons. simpl. apply Nat.max_lub; [by eapply IH|exact IH2].
Qed.

(** Below a node of a well-formed store there is a tree, and the layers
    bound the fuel needed to read it. *)
Lemma tree_of_total z dp :
  wf z → layered z dp →
  ∀ k b i n, load z (Elem b i) = Some n → length (mem z) - dp b ≤ k →
             is_Some (tree_of k (mem z) n).
Proof.
  intros Hwf (_ & Hd2 & Hd3). induction k as [|k IH]; intros b i n Hn Hk.
  - apply load_Elem in Hn as (lb & Hlb & _). specialize (Hd3 _ _ Hlb). lia.
  - destruct (wf_vec z Hwf _ _ Hn) as [[l Hl] _]. simpl. rewrite Hl. simpl.
    destruct (mapM_is_Some_2 (tree_of k (mem z)) l) as [ts ->]; [|by eauto].
    apply contents_Some in Hl as [_ Hl].
    destruct (v_data (children n)) as [c|] eqn:Hc; [|by subst l].
    apply Forall_lookup_2. intros j ch Hch. simpl.
    apply (IH c j).
    + simpl. by rewrite Hl.
    + rewrite (Hd2 _ _ _ _ Hn Hc). lia.
Qed.

Lemma tree_of_root_total z :
  wf z → is_Some (tree_of (S (length (mem z))) (mem z) (root z)).
Proof.
  intros Hwf. destruct (wf_layers z Hwf) as (dp & Hlay).
  pose proof Hlay as (Hd1 & _ & _).
  destruct (wf_vec z Hwf Root (root z) eq_refl) as [[l Hl] _].
  simpl. rewrite Hl. simpl.
  destruct (mapM_is_Some_2 (tree_of (length (mem z)) (mem z)) l) as [ts ->];
    [|by eauto].
  apply contents_Some in Hl as [_ Hl].
  destruct (v_data (children (root z))) as [c|] eqn:Hc; [|by subst l].
  apply Forall_lookup_2. intros j ch Hch. simpl.
  apply (tree_of_total z dp Hwf Hlay _ c j).
  - simpl. by rewrite Hl.
  - rewrite (Hd1 _ eq_refl). lia.
Qed.

(** C9: a well-formed store represents a tree [t] below the root, and
    [printTree] (given fuel above the number of buffers) writes the nodes
    of [t] in pre-order, a node at depth [d] as its value in a field of
    [d × 4] characters followed by the line terminator, the children in
    child order one level deeper; the first line is the root's value
    without padding.  The number of buffers allocated so far, times four,
    has to fit an [int], so that [depth * 4] does. *)
Theorem printTree_writes_preorder_lines z out :
  wf z →
  (4 * (Z.of_nat (length (mem z)) + 1) ≤ INT_MAX)%Z →
  ∃ t rest,
    tree_of (S (length (mem z))) (mem z) (root z) = Some t ∧
    preorder 0 t = (0, value (root z)) :: rest ∧
    line show (0, value (root z)) = show (value (root z)) +:+ endl ∧
    ∀ fuel, length (mem z) < fuel →
      printTree show fuel out z =
        Some (out +:+ foldr String.append "" (line show <$> preorder 0 t)).
Proof.
  intros Hwf Hint. destruct (tree_of_root_total z Hwf) as [t Ht].
  pose proof (tree_of_height _ _ _ _ Ht) as Hh.
  assert (∃ rest, preorder 0 t = (0, value (root z)) :: rest) as [rest Hrest].
  { simpl in Ht. destruct (contents _ _); [|done]. simpl in Ht.
    destruct (mapM _ _) as [ts|]; [|done]. injection Ht as <-. by eexists. }
  exists t, rest. split_and!; [done..|].
  intros fuel Hfuel. unfold printTree.
  apply (node_printTree_render (S (length (mem z))) _ _ _ t 0); [done|lia|lia].
Qed.

End Printing.

(** *** The traversals that do not instantiate *)

(** With a predicate that yields a [bool], [std::find_if] stops at the
    first element that satisfies it. *)
Lemma find_if_first_match {A : Type} (pred : A → bool) (xs : list A) :
  ∃ i, find_if pred xs = Some i ∧
       (∀ j y, j < i → xs !! j = Some y → pred y = false) ∧
       (i = length xs ∨ ∃ x, xs !! i = Some x ∧ pred x = true).
Proof.
  unfold find_if. simpl. induction xs as [|x xs (i & Hi & Hlt & Hat)]; simpl.
  - exists 0. split_and!; [done|lia|by left].
  - injection Hi as Hi. unfold id in *. destruct (pred x) eqn:Hx.
    + exists 0. split_and!; [done|lia|right; by exists x].
    + exists (S i). split_and!.
      * by rewrite Hi.
      * intros [|j] y Hj; simpl; [by intros [= <-]|]. apply Hlt. lia.
      * destruct Hat as [->|Hat]; [by left|by right].
Qed.

(** [std::find_if] cannot use the lambda of [node::find_branch]: its
    result is [void]. *)
Lemma node_find_branch_undefined (p : T → bool) this z :
  node_find_branch p this z = Undefined.
Proof.
  unfold node_find_branch, mbind, M_bind, deref, get_mem, defined.
  destruct (load z this); [|done].
  by destruct (contents (mem z) _).
Qed.

Lemma find_branch_undefined (p : T → bool) z : find_branch p z = Undefined.
Proof.
  unfold find_branch, mbind, M_bind, get_current.
  by rewrite node_find_branch_undefined.
Qed.

(** [foreach_child] cannot call the lambda of [node::map_children] on a
    value. *)
Lemma map_children_undefined {U : Type} (p : callable T U) this z :
  map_children p this z = Undefined.
Proof.
  unfold map_children, collected, foreach_child, mbind, M_bind, defined.
  destruct (on_value p); [|done]. by destruct (on_node p).
Qed.

Lemma map_branches_undefined {U : Type} (p : callable T U) z :
  map_branches p z = Undefined.
Proof.
  unfold map_branches, mbind, M_bind, get_current.
  by rewrite map_children_undefined.
Qed.

End Facts.

(** ** The operations at concrete states *)

Lemma preserves_wf_add_children vs : preserves_wf (add_children vs).
Proof.
  induction vs as [|v vs IH]; simpl.
  - apply preserves_wf_ret.
  - apply preserves_wf_bind; [apply preserves_wf_entre_new_branch|].
    intros _. apply preserves_wf_bind; [apply preserves_wf_step_back|].
    intros _. apply IH.
Qed.

Lemma scenario_A_eq :
  (entre_new_branch libstdcxx_grow 0%Z ;;
   entre_new_branch libstdcxx_grow 1%Z ;;
   entre_new_branch libstdcxx_grow 2%Z) demo_start = Ret tt scenario_A_state.
Proof. reflexivity. Qed.

Lemma wf_scenario_A : wf scenario_A_state.
Proof.
  assert (Hp : preserves_wf
    (entre_new_branch libstdcxx_grow 0%Z ;;
     entre_new_branch libstdcxx_grow 1%Z ;;
     entre_new_branch libstdcxx_grow 2%Z)).
  { apply preserves_wf_bind; [apply preserves_wf_entre_new_branch|intros _].
    apply preserves_wf_bind; [apply preserves_wf_entre_new_branch|intros _].
    apply preserves_wf_entre_new_branch. }
  apply (Hp demo_start); [apply wf_zipper_init|by rewrite scenario_A_eq].
Qed.

Lemma scenario_C_eq : scenario_C = Some scenario_C_state.
Proof. reflexivity. Qed.

Lemma wf_scenario_C : wf scenario_C_state.
Proof.
  apply (preserves_wf_add_children [10; 20; 30]%Z (zipper_init 0%Z)).
  - apply wf_zipper_init.
  - exact scenario_C_eq.
Qed.

Lemma scenario_D_eq : scenario_D = Some scenario_D_state.
Proof. reflexivity. Qed.

Lemma wf_scenario_D : wf scenario_D_state.
Proof.
  apply (preserves_wf_add_children [1; 2; 3; 4]%Z (zipper_init 0%Z)).
  - apply wf_zipper_init.
  - exact scenario_D_eq.
Qed.

(** Scenario E and Scenario A: [step_back] fails on a fresh zipper and
    leaves it as it was; from the node 2 of the chain it moves the cursor
    to the node 1. *)
Lemma step_back_fails_exactly_at_root_witness :
  (can_step_back (zipper_init 7%Z) = Ret false (zipper_init 7%Z) ∧
   step_back (zipper_init 7%Z) = Throw cannot_step_back (zipper_init 7%Z)) ∧
  (can_step_back scenario_A_state = Ret true scenario_A_state ∧
   step_back scenario_A_state =
     Ret tt (Zipper (root scenario_A_state) (Elem 1 0) (mem scenario_A_state))).
Proof.
  split.
  - destruct (step_back_fails_exactly_at_root (zipper_init 7%Z)
                (Node empty_vector nullptr 7%Z))
      as (Hcan & Hroot & _ & _).
    + apply wf_zipper_init.
    + reflexivity.
    + split; [exact Hcan|by apply Hroot].
  - destruct (step_back_fails_exactly_at_root scenario_A_state
                (Node empty_vector (Elem 1 0) 2%Z))
      as (Hcan & _ & Helem & _).
    + apply wf_scenario_A.
    + reflexivity.
    + split; [exact Hcan|]. by apply Helem.
Defined.


Lemma step_back_negative_is_noop_witness :
  step_back_n (-3) (zipper_init 7%Z) = Ret tt (zipper_init 7%Z) ∧
  step_back_n 0 (zipper_init 7%Z) = Ret tt (zipper_init 7%Z).
Proof. apply step_back_negative_is_noop. lia. Defined.

Lemma enter_new_branch_then_step_back_witness :
  ∃ z1 z2 n2,
    entre_new_branch libstdcxx_grow 5%Z (zipper_init 7%Z) = Ret tt z1 ∧
    step_back z1 = Ret tt z2 ∧
    wf z2 ∧
    current z2 = Root ∧
    focused z2 n2 ∧ value n2 = 7%Z ∧ parent n2 = nullptr ∧
    child_values z2 n2 = [] ++ [5%Z] ∧
    last (child_values z2 n2) = Some 5%Z.
Proof.
  apply (enter_new_branch_then_step_back libstdcxx_grow 5%Z (zipper_init 7%Z)
           (Node empty_vector nullptr 7%Z)).
  - apply wf_zipper_init.
  - reflexivity.
Defined.

(** *** Scenario B: the demo driver *)

Lemma demo_step_back_calls_eq : demo_step_back_calls = [5; 11; 17; 23]%Z.
Proof. reflexivity. Qed.

(** C3, as stated, fails: none of the [step_back(5)] calls of Scenario B
    fails. *)
Lemma demo_no_step_back_call_fails :
  ¬ Exists demo_call_fails demo_step_back_calls.
Proof.
  rewrite demo_step_back_calls_eq. rewrite !Exists_cons, Exists_nil.
  intros [H|[H|[H|[H|[]]]]]; destruct H as (z & z' & Hz & Hfail);
    vm_compute in Hz; injection Hz as <-; vm_compute in Hfail; discriminate.
Qed.

(** C3, amended: in Scenario B the [step_back(5)] calls are those of
    iterations 5, 11, 17 and 23, each returns with the cursor on the root,
    the loop ends normally with the cursor on the node 25 of a well-formed
    store that represents the tree -1 with the chains 0..4, 6..10, 12..16,
    18..22 and 24, 25 below it, nothing is written to the error stream and
    the tree is printed. *)
Theorem demo_every_step_back_call_returns :
  demo_step_back_calls = [5; 11; 17; 23]%Z ∧
  Forall demo_call_returns demo_step_back_calls ∧
  ∃ z n,
    demo_loop 26 demo_start = Ret tt z ∧
    wf z ∧ focused z n ∧ value n = 25%Z ∧
    tree_of 7 (mem z) (root z) = Some demo_tree ∧
    render pretty 0 demo_tree = demo_output ∧
    demo_main 7 = Some ("", demo_output).
Proof.
  split; [reflexivity|]. split.
  - rewrite demo_step_back_calls_eq.
    repeat apply Forall_cons_2; [..|apply Forall_nil_2];
      (eexists _, _; split_and!; vm_compute; reflexivity).
  - destruct (demo_loop 26 demo_start) as [[] z|e z|] eqn:Hrun;
      [|vm_compute in Hrun; discriminate..].
    assert (Hwf : wf z).
    { apply (preserves_wf_for_loop 26 0 demo_step) with (z := demo_start).
      - intros j. unfold demo_step. case_decide.
        + apply preserves_wf_step_back_n.
        + apply preserves_wf_entre_new_branch.
      - apply wf_zipper_init.
      - change (for_loop 26 0 demo_step demo_start = Ret tt z) in Hrun.
        by rewrite Hrun. }
    vm_compute in Hrun. injection Hrun as <-.
    eexists _, _. split_and!; [reflexivity|exact Hwf|..]; vm_compute; reflexivity.
Qed.

(** In the state the demo ends in, node 0 sits at slot 0 of buffer 19 and
    owns buffer 1, while node 1 in that buffer still has the released
    slot 0 of buffer 0 as its [parent]. *)
Lemma demo_final_parents_dangle :
  ∃ z, demo_loop 26 demo_start = Ret tt z ∧
       load z (Elem 19 0) = Some (Node (Vector (Some 1) 1 1) Root 0%Z) ∧
       load z (Elem 1 0) = Some (Node (Vector (Some 2) 1 1) (Elem 0 0) 1%Z) ∧
       load z (Elem 0 0) = None ∧
       ¬ parents_correct z.
Proof.
  destruct (demo_loop 26 demo_start) as [[] z|e z|] eqn:Hrun;
    [|vm_compute in Hrun; discriminate..].
  vm_compute in Hrun. injection Hrun as <-.
  eexists. split_and!; try reflexivity.
  intros Hpc.
  specialize (Hpc (Elem 19 0) (Node (Vector (Some 1) 1 1) Root 0%Z) 1 0
                (Node (Vector (Some 2) 1 1) (Elem 0 0) 1%Z)
                eq_refl eq_refl eq_refl).
  discriminate Hpc.
Qed.

(** *** Parent pointers after a growth *)

(** C2 fails on the code: after the append that makes the root's
    [children] grow, the store is still well-formed and the cursor is on
    the new node, but node 1 (a grandchild of the root) has a [parent]
    that is the address of no live node, whereas its buffer belongs to the
    node at slot 0 of buffer 2; going back up from node 1 leaves the cursor
    on released storage and the next use of it is undefined. *)
Theorem parent_dangles_after_growth :
  grow_under_root demo_start = Ret tt grown_state ∧
  wf grown_state ∧
  load grown_state (Elem 2 0) = Some (Node (Vector (Some 1) 1 1) Root 0%Z) ∧
  load grown_state (Elem 1 0) = Some (Node empty_vector (Elem 0 0) 1%Z) ∧
  load grown_state (Elem 0 0) = None ∧
  ¬ parents_correct grown_state ∧
  revisit_first_chain demo_start = Undefined.
Proof.
  assert (Hrun : grow_under_root demo_start = Ret tt grown_state)
    by reflexivity.
  split_and!; try reflexivity.
  - assert (Hp : preserves_wf grow_under_root).
    { unfold grow_under_root.
      apply preserves_wf_bind; [apply preserves_wf_entre_new_branch|intros _].
      apply preserves_wf_bind; [apply preserves_wf_entre_new_branch|intros _].
      apply preserves_wf_bind; [apply preserves_wf_step_back_n|intros _].
      apply preserves_wf_entre_new_branch. }
    apply (Hp demo_start); [apply wf_zipper_init|by rewrite Hrun].
  - intros Hpc.
    specialize (Hpc (Elem 2 0) (Node (Vector (Some 1) 1 1) Root 0%Z) 1 0
                  (Node empty_vector (Elem 0 0) 1%Z) eq_refl eq_refl eq_refl).
    discriminate Hpc.
Qed.

Lemma preserves_wf_grow_under_root : preserves_wf grow_under_root.
Proof.
  unfold grow_under_root.
  apply preserves_wf_bind; [apply preserves_wf_entre_new_branch|intros _].
  apply preserves_wf_bind; [apply preserves_wf_entre_new_branch|intros _].
  apply preserves_wf_bind; [apply preserves_wf_step_back_n|intros _].
  apply preserves_wf_entre_new_branch.
Qed.

Lemma wf_node_1_state : wf node_1_state.
Proof.
  assert (Hp : preserves_wf visit_node_1).
  { unfold visit_node_1.
    apply preserves_wf_bind; [apply preserves_wf_grow_under_root|intros _].
    apply preserves_wf_bind; [apply preserves_wf_step_back|intros _].
    apply preserves_wf_bind; [apply preserves_wf_step_forward|intros _].
    apply preserves_wf_step_forward. }
  apply (Hp demo_start); [apply wf_zipper_init|reflexivity].
Qed.

(** C4 fails on the code where the [parent] of the focused node is stale:
    after [visit_node_1] the store is well-formed and the cursor is on
    node 1, whose buffer belongs to node 0, at slot 0 of buffer 2; the
    cursor is not the root, [can_step_back] is true and [step_back]
    returns, but it leaves the cursor on slot 0 of the released buffer 0,
    where no node lives, and not on node 0, the parent of node 1. *)
Theorem step_back_from_node_1 :
  visit_node_1 demo_start = Ret tt node_1_state ∧
  wf node_1_state ∧
  focused node_1_state (Node empty_vector (Elem 0 0) 1%Z) ∧
  load node_1_state (Elem 2 0) = Some (Node (Vector (Some 1) 1 1) Root 0%Z) ∧
  live (mem node_1_state) 1 = Some [Node empty_vector (Elem 0 0) 1%Z] ∧
  can_step_back node_1_state = Ret true node_1_state ∧
  step_back node_1_state =
    Ret tt (Zipper (root node_1_state) (Elem 0 0) (mem node_1_state)) ∧
  load node_1_state (Elem 0 0) = None ∧
  step_back node_1_state ≠
    Ret tt (Zipper (root node_1_state) (Elem 2 0) (mem node_1_state)).
Proof.
  split_and!; try reflexivity.
  - apply wf_node_1_state.
  - discriminate.
Qed.

(** *** Scenario C and Scenario D *)

(** C1 fails on the code: in Scenario C the second child has the value 20,
    and [find_branch] with the predicate "equals 20" has no defined result
    (at the node and at the zipper), where the specification has it
    return 1. *)
Theorem find_branch_scenario_C :
  scenario_C = Some scenario_C_state ∧
  child_values scenario_C_state (root scenario_C_state) = [10; 20; 30]%Z ∧
  node_find_branch (λ v, bool_decide (v = 20%Z)) Root scenario_C_state
    = Undefined ∧
  find_branch (λ v, bool_decide (v = 20%Z)) scenario_C_state = Undefined ∧
  find_branch (λ v, bool_decide (v = 20%Z)) scenario_C_state
    ≠ Ret 1%Z scenario_C_state.
Proof.
  split_and!; [reflexivity|reflexivity| | |].
  - apply node_find_branch_undefined.
  - apply find_branch_undefined.
  - by rewrite find_branch_undefined.
Qed.

(** C8 fails on the code: in Scenario D, [map_branches] with the squaring
    function has no defined result, whether or not the callable can also be
    called on a node, where the specification has it return 1, 4, 9, 16. *)
Theorem map_branches_scenario_D :
  scenario_D = Some scenario_D_state ∧
  child_values scenario_D_state (root scenario_D_state) = [1; 2; 3; 4]%Z ∧
  map_branches (Callable (Some (λ v, v * v)%Z) None) scenario_D_state
    = Undefined ∧
  (∀ g' : node Z → Z,
     map_branches (Callable (Some (λ v, v * v)%Z) (Some g')) scenario_D_state
       ≠ Ret [1; 4; 9; 16]%Z scenario_D_state).
Proof.
  split_and!; [reflexivity|reflexivity| |].
  - apply map_branches_undefined.
  - intros g'. by rewrite map_branches_undefined.
Qed.

(** C7 fails on the code: in Scenario D, [fold_children] with the folder
    [(v, acc) → v + acc], which can be called on a value and not on a
    node, has no defined result, where the specification has it return 10;
    a folder that can also be called on a node does get the left fold. *)
Theorem fold_children_scenario_D :
  scenario_D = Some scenario_D_state ∧
  child_values scenario_D_state (root scenario_D_state) = [1; 2; 3; 4]%Z ∧
  fold_children (Callable (Some sum_folder) None) 0%Z tt scenario_D_state
    = NoBehaviour ∧
  fold_children (Callable (Some sum_folder) None) 0%Z tt scenario_D_state
    ≠ Done 10%Z tt scenario_D_state ∧
  (∀ g', fold_children (Callable (Some sum_folder) (Some g')) 0%Z tt
           scenario_D_state = Done 10%Z tt scenario_D_state).
Proof.
  split_and!; try reflexivity. discriminate.
Qed.

Lemma printTree_writes_preorder_lines_witness :
  printTree pretty 4 "" scenario_A_state =
    Some "-1
   0
       1
           2
".
Proof.
  destruct (printTree_writes_preorder_lines pretty scenario_A_state "")
    as (t & rest & Ht & _ & _ & Hprint).
  - apply wf_scenario_A.
  - vm_compute. discriminate.
  - vm_compute in Ht. injection Ht as <-.
    rewrite (Hprint 4) by (simpl; lia). reflexivity.
Defined.

(** * Further properties of the zipper *)

Section MoreFacts.

Context {T : Type}.
Variable grow : nat → nat.
Implicit Types (z : zipper T) (n m : node T) (p q : ptr) (l : list (node T)).

(** *** Looking down from the cursor *)

(** X1: with the cursor on a live node of a well-formed store,
    [can_step_forward] is true exactly when the focused node has a child,
    which is exactly when [step_forward(0)] returns; the vector that
    [available_branches] refers to has as many elements as there are
    children; neither call changes the state. *)
Theorem can_step_forward_iff_children z n :
  wf z → focused z n →
  can_step_forward z = Ret (bool_decide (child_values z n ≠ [])) z ∧
  available_branches z = Ret (children n) z ∧
  v_size (children n) = length (child_values z n) ∧
  (child_values z n ≠ [] ↔ ∃ z', step_forward 0 z = Ret tt z').
Proof.
  intros Hwf Hn.
  destruct (wf_vec z Hwf _ _ Hn) as [[l Hl] _].
  destruct (contents_Some _ _ _ Hl) as [Hlen _].
  rewrite (child_values_contents _ _ _ Hl).
  assert (Hnil : value <$> l ≠ [] ↔ v_size (children n) ≠ 0).
  { rewrite <- Hlen. destruct l; simpl; split; intros; congruence || lia. }
  unfold focused in Hn.
  unfold can_step_forward, available_branches, mbind, M_bind, get_current,
    deref. rewrite Hn. unfold mret, M_ret. split_and!.
  - f_equal. destruct (decide (v_size (children n) = 0)) as [H0|H0].
    + rewrite bool_decide_eq_true_2 by done. simpl.
      rewrite bool_decide_eq_false_2; [done|]. rewrite Hnil. lia.
    + rewrite bool_decide_eq_false_2 by done. simpl.
      rewrite bool_decide_eq_true_2; [done|]. by rewrite Hnil.
  - done.
  - by rewrite length_fmap.
  - rewrite Hnil. unfold step_forward. rewrite decide_False by lia.
    unfold mbind, M_bind, get_current, deref. rewrite Hn.
    case_decide as Hsz.
    + split; [lia|]. by intros [z' ?].
    + split; [|lia]. intros _. unfold set_current. eauto.
Qed.

(** *** Entering a new branch *)

Lemma entre_new_branch_inv v z z1 :
  entre_new_branch grow v z = Ret tt z1 →
  ∃ z0 n',
    emplace_back grow (current z) (Node empty_vector (current z) v) z
      = Ret tt z0 ∧
    load z0 (current z) = Some n' ∧
    z1 = Zipper (root z0) (back (children n')) (mem z0).
Proof.
  unfold entre_new_branch, emplace_branch, mbind, M_bind, get_current.
  destruct (emplace_back grow (current z) _ z) as [[] z0| |] eqn:Hrun;
    [|done..].
  unfold deref, set_current.
  destruct (load z0 (current z)) as [n'|] eqn:Hn'; [|done].
  intros [= <-]. by exists z0, n'.
Qed.

(** The nodes that [emplace_back] does not touch: all but the owner and
    the elements of its vector. *)
Lemma emplace_back_frame p new z z0 n :
  emplace_back grow p new z = Ret tt z0 → load z p = Some n →
  ∀ q m, load z q = Some m → q ≠ p →
         (∀ bo j, v_data (children n) = Some bo → q ≠ Elem bo j) →
         load z0 q = Some m.
Proof.
  intros Hrun Hn q m Hm Hqp Hqc.
  destruct (emplace_back_Ret _ _ _ _ _ Hrun) as (n0 & l & Hn0 & Hl & Hcase).
  rewrite Hn in Hn0. injection Hn0 as <-. simpl in Hcase.
  destruct Hcase as [(_ & b & Hb & Hst)|(_ & Hst)];
    rewrite (store_load _ _ _ _ Hst), decide_False by done;
    (destruct q as [| |c j]; [done|done|]);
    apply load_Elem in Hm as (lc & Hlc & Hj); simpl.
  - rewrite live_insert_ne; [by rewrite Hlc|].
    intros ->. by eapply Hqc.
  - pose proof (live_lt _ _ _ Hlc) as Hc.
    destruct (v_data (children n)) as [bo|] eqn:Hbo.
    + rewrite live_insert_ne, live_app_old, Hlc; [done|lia|].
      intros ->. by eapply Hqc.
    + by rewrite live_app_old, Hlc by lia.
Qed.

(** X2: on a well-formed store with the cursor on a live node,
    [entre_new_branch v] returns; the cursor is then on a live node with
    value [v], no children and the old cursor as [parent], so that
    [can_step_back] is true and [can_step_forward] is false; the node the
    cursor was on keeps its address, value and [parent], and its children
    are the ones it had, unchanged and at the same indices, followed by the
    new node. *)
Theorem entre_new_branch_appends_leaf v z n :
  wf z → focused z n →
  ∃ z1 n1 l,
    entre_new_branch grow v z = Ret tt z1 ∧ wf z1 ∧
    focused z1 (Node empty_vector (current z) v) ∧
    can_step_back z1 = Ret true z1 ∧
    can_step_forward z1 = Ret false z1 ∧
    load z1 (current z) = Some n1 ∧
    parent n1 = parent n ∧ value n1 = value n ∧
    contents (mem z) (children n) = Some l ∧
    contents (mem z1) (children n1) =
      Some (l ++ [Node empty_vector (current z) v]) ∧
    current z1 = at_index (children n1) (length l).
Proof.
  intros Hwf Hn.
  destruct (entre_new_branch_focused grow v z n Hwf Hn)
    as (z1 & n1 & l & Hrun & Hwf1 & Hl & Hfoc & Hn1 & Hp & Hv & Hl1).
  exists z1, n1, l. split_and!; try done.
  - rewrite (can_step_back_focused z1 _ Hfoc). simpl.
    by rewrite bool_decide_eq_true_2 by (by eapply focused_not_null).
  - unfold can_step_forward, mbind, M_bind, get_current, deref.
    unfold focused in Hfoc. by rewrite Hfoc.
  - destruct (entre_new_branch_inv v z z1 Hrun) as (z0 & n' & _ & Hn' & ->).
    rewrite (load_ext z0) in Hn1 by done. rewrite Hn' in Hn1.
    injection Hn1 as ->. simpl in Hl1.
    destruct (contents_Some _ _ _ Hl1) as [Hlen _].
    rewrite length_app in Hlen. simpl in Hlen.
    unfold back. simpl. f_equal. lia.
Qed.

(** X3: [entre_new_branch] leaves every live node other than the focused
    node and its children where it is and as it is. *)
Theorem entre_new_branch_frame v z z1 n :
  focused z n → entre_new_branch grow v z = Ret tt z1 →
  ∀ q m, load z q = Some m → q ≠ current z →
         (∀ bo j, v_data (children n) = Some bo → q ≠ Elem bo j) →
         load z1 q = Some m.
Proof.
  intros Hn Hrun q m Hm Hqp Hqc.
  destruct (entre_new_branch_inv v z z1 Hrun) as (z0 & n' & Hrun0 & _ & ->).
  rewrite (load_ext z0) by done.
  by eapply emplace_back_frame.
Qed.

(** X6: after [entre_new_branch v] and [step_back()], [step_forward] with
    the index of the last child gives back the state [entre_new_branch v]
    had left. *)
Theorem step_forward_last_undoes_step_back v z n :
  wf z → focused z n →
  ∃ z1 z2,
    entre_new_branch grow v z = Ret tt z1 ∧
    step_back z1 = Ret tt z2 ∧
    step_forward (Z.of_nat (v_size (children n))) z2 = Ret tt z1.
Proof.
  intros Hwf Hn.
  destruct (entre_new_branch_focused grow v z n Hwf Hn)
    as (z1 & n1 & l & Hrun & Hwf1 & Hl & Hfoc & Hn1 & Hp & Hv & Hl1).
  destruct (entre_new_branch_inv v z z1 Hrun) as (z0 & n' & _ & Hn' & ->).
  rewrite (load_ext z0) in Hn1 by done. rewrite Hn' in Hn1.
  injection Hn1 as ->. simpl in Hl1.
  destruct (contents_Some _ _ _ Hl) as [Hlen _].
  destruct (contents_Some _ _ _ Hl1) as [Hlen1 _].
  rewrite length_app in Hlen1. simpl in Hlen1.
  eexists _, _. split; [done|]. split.
  - unfold step_back, mbind, M_bind.
    rewrite (can_step_back_focused _ _ Hfoc). simpl.
    rewrite bool_decide_eq_true_2 by (by eapply focused_not_null). simpl.
    unfold get_current, deref, set_current. unfold focused in Hfoc.
    simpl in Hfoc. simpl. by rewrite Hfoc.
  - unfold step_forward. rewrite decide_False by lia.
    unfold mbind, M_bind, get_current, deref. simpl.
    rewrite (load_ext z0) by done. rewrite Hn'.
    rewrite decide_False by lia. unfold set_current. simpl.
    rewrite Nat2Z.id. unfold back.
    by replace (v_size (children n1) - 1) with (v_size (children n)) by lia.
Qed.

(** *** Parent pointers that stay right *)

Lemma emplace_back_in_place p new z z0 n n' :
  emplace_back grow p new z = Ret tt z0 →
  load z p = Some n → load z0 p = Some n' →
  v_size (children n) < v_capacity (children n) →
  v_data (children n') = v_data (children n).
Proof.
  intros Hrun Hn Hn' Hlt.
  destruct (emplace_back_Ret _ _ _ _ _ Hrun) as (n0 & l & Hn0 & Hl & Hcase).
  rewrite Hn in Hn0. injection Hn0 as <-. simpl in Hcase.
  destruct Hcase as [(_ & b & Hb & Hst)|(Hge & _)]; [|done].
  pose proof (store_load _ _ _ _ Hst p) as Hld.
  rewrite decide_True, Hn' in Hld by done. injection Hld as ->. by simpl.
Qed.

(** X4: [entre_new_branch] keeps all [parent] pointers right when the
    focused node's vector has spare capacity, or when none of its children
    has children of its own (so that no node whose address is recorded in
    a [parent] is moved). *)
Theorem entre_new_branch_keeps_parents v z z1 n l :
  wf z → focused z n → parents_correct z →
  contents (mem z) (children n) = Some l →
  v_size (children n) < v_capacity (children n) ∨
    Forall (λ ch, v_data (children ch) = None) l →
  entre_new_branch grow v z = Ret tt z1 →
  parents_correct z1.
Proof.
  intros Hwf Hn Hpc Hl Hsafe Hrun.
  destruct (entre_new_branch_inv v z z1 Hrun) as (z0 & n1 & Hrun0 & Hn1 & ->).
  destruct (emplace_back_effect _ _ _ _ _ Hwf Hrun0)
    as (n0 & l0 & bn & cp & Hn0 & Hl0 & Hbn & Hp & Hfresh & _ & _ & Hside).
  cbv zeta in Hside. destruct Hside as (Hn' & _ & Hcls).
  unfold focused in Hn. rewrite Hn in Hn0. injection Hn0 as <-.
  rewrite Hl in Hl0. injection Hl0 as <-.
  destruct (emplace_back_blocks _ _ _ _ _ _ _ bn Hrun0 Hn Hn' eq_refl)
    as [Hwhich _].
  apply contents_Some in Hl as [_ Hlive].
  intros p' m c i ch Hm Hc Hch.
  rewrite (load_ext z0) in Hm by done. rewrite (load_ext z0) in Hch by done.
  destruct (Hcls _ _ Hm) as [[-> ->]|[[_ ->]|(q0 & Hq0 & Hm0 & Hca)]].
  - simpl in Hc. injection Hc as <-.
    destruct (Hcls _ _ Hch) as [[E _]|[[_ ->]|(q1 & _ & Hch1 & Hca1)]].
    + by destruct (Hp i).
    + done.
    + destruct Hca1 as [<-|(bo & j & Hbo & _ & [= ->] & ->)].
      * destruct Hwhich as [[Hd _]|[Hfr _]].
        -- by eapply Hpc.
        -- apply load_Elem in Hch1 as (? & Hx & _). apply live_lt in Hx. lia.
      * by eapply Hpc.
  - done.
  - assert (c ≠ bn) as Hcbn by (intros ->; by apply (Hfresh _ _ Hm0 Hq0)).
    destruct Hca as [<-|(bo & j & Hbo & Hfree & -> & ->)].
    + destruct (Hcls _ _ Hch) as [[E ->]|[[[= ? _] _]|(q1 & _ & Hch1 & Hca1)]].
      * simpl. rewrite <- E in Hn. by eapply Hpc.
      * done.
      * destruct Hca1 as [<-|(? & ? & _ & _ & [= ? _] & _)]; [|done].
        by eapply Hpc.
    + exfalso. destruct Hsafe as [Hlt|Hleaf].
      * pose proof (emplace_back_in_place _ _ _ _ _ _ Hrun0 Hn Hn' Hlt) as E.
        simpl in E. rewrite Hbo in E. injection E as ->.
        by rewrite Hfree in Hbn.
      * rewrite Hbo in Hlive. apply load_Elem in Hm0 as (l' & Hl' & Hj).
        rewrite Hlive in Hl'. injection Hl' as <-.
        rewrite Forall_lookup in Hleaf. by rewrite (Hleaf _ _ Hj) in Hc.
Qed.

(** X5: where the [parent] pointers are right, [step_forward] into any
    child followed by [step_back()] gives back the state it started from. *)
Theorem step_forward_then_step_back z n (i : Z) :
  wf z → focused z n → parents_correct z →
  (0 ≤ i < Z.of_nat (v_size (children n)))%Z →
  ∃ z1, step_forward i z = Ret tt z1 ∧ step_back z1 = Ret tt z.
Proof.
  intros Hwf Hn Hpc Hi.
  destruct (wf_vec z Hwf _ _ Hn) as [[l Hl] _].
  destruct (contents_Some _ _ _ Hl) as [Hlen Hlive].
  destruct (lookup_lt_is_Some_2 l (Z.to_nat i)) as [ch Hch]; [lia|].
  destruct (v_data (children n)) as [c|] eqn:Hc; [|by subst l].
  assert (Hload : load z (Elem c (Z.to_nat i)) = Some ch).
  { simpl. by rewrite Hlive. }
  pose proof (Hpc _ _ _ _ _ Hn Hc Hload) as Hpar.
  exists (Zipper (root z) (Elem c (Z.to_nat i)) (mem z)). split.
  - unfold step_forward. rewrite decide_False by lia.
    unfold mbind, M_bind, get_current, deref. unfold focused in Hn.
    rewrite Hn. rewrite decide_False by lia.
    unfold set_current, at_index. by rewrite Hc.
  - unfold step_back, can_step_back, mbind, M_bind, get_current, deref.
    simpl. simpl in Hload. rewrite Hload. simpl.
    rewrite bool_decide_eq_true_2 by (by eapply (wf_elem z Hwf)). simpl.
    rewrite Hload. unfold set_current. simpl. rewrite Hpar. by destruct z.
Qed.

(** *** Several steps back *)

Lemma for_loop_index k (body : M T unit) : ∀ i j z,
  for_loop k i (λ _, body) z = for_loop k j (λ _, body) z.
Proof.
  induction k as [|k IH]; intros i j z; simpl; [done|].
  unfold mbind, M_bind. destruct (body z); [apply IH|done..].
Qed.

Lemma step_back_n_0 z : step_back_n 0 z = Ret tt z.
Proof. done. Qed.

Lemma step_back_n_S k z :
  step_back_n (Z.of_nat (S k)) z = (step_back ;; step_back_n (Z.of_nat k)) z.
Proof.
  unfold step_back_n, for_int.
  replace (Z.to_nat (Z.of_nat (S k) - 0)) with (S k) by lia.
  replace (Z.to_nat (Z.of_nat k - 0)) with k by lia. simpl.
  unfold mbind, M_bind. destruct (step_back z); [|done..].
  apply for_loop_index.
Qed.

Lemma climbs_ext z z' k p q :
  root z' = root z → mem z' = mem z → climbs z k p q → climbs z' k p q.
Proof.
  intros Hr Hm. revert p. induction k as [|k IH]; intros p; simpl; [done|].
  intros (n & Hn & Hp & Hk). exists n. rewrite (load_ext z z') by done. eauto.
Qed.

(** A single [step_back], read off its definition. *)
Lemma step_back_Ret z z' :
  step_back z = Ret tt z' ↔
  ∃ n, load z (current z) = Some n ∧ parent n ≠ nullptr ∧
       z' = Zipper (root z) (parent n) (mem z).
Proof.
  unfold step_back, can_step_back, mbind, M_bind, get_current, deref.
  destruct (load z (current z)) as [n|] eqn:Hn; simpl.
  - case_bool_decide as Hp; simpl.
    + rewrite Hn. unfold set_current. split.
      * intros [= <-]. by exists n.
      * by intros (? & [= <-] & _ & ->).
    + split; [done|]. by intros (? & [= <-] & ? & _).
  - split; [done|]. by intros (? & ? & _).
Qed.

Lemma step_back_n_climbs k : ∀ z q,
  climbs z k (current z) q →
  step_back_n (Z.of_nat k) z = Ret tt (Zipper (root z) q (mem z)).
Proof.
  induction k as [|k IH]; intros z q.
  - rewrite step_back_n_0. simpl. intros <-. by destruct z.
  - intros (n & Hn & Hp & Hc). rewrite step_back_n_S. unfold mbind, M_bind.
    assert (step_back z = Ret tt (Zipper (root z) (parent n) (mem z))) as ->
      by (apply step_back_Ret; eauto).
    rewrite (IH _ q); [done|]. by eapply climbs_ext; [..|exact Hc].
Qed.

(** X7: [step_back(k)] returns exactly when [k] [parent] pointers can be
    followed from the cursor through live nodes without meeting a null
    one; the cursor is then where they lead, the tree is untouched. *)
Theorem step_back_n_follows_parents k z z' :
  step_back_n (Z.of_nat k) z = Ret tt z' ↔
  climbs z k (current z) (current z') ∧ root z' = root z ∧ mem z' = mem z.
Proof.
  split.
  - revert z. induction k as [|k IH]; intros z.
    + rewrite step_back_n_0. by intros [= <-].
    + rewrite step_back_n_S. unfold mbind, M_bind.
      destruct (step_back z) as [[] z1| |] eqn:Hsb; [|done..].
      apply step_back_Ret in Hsb as (n & Hn & Hp & ->).
      intros Hrun. destruct (IH _ Hrun) as (Hc & Hr & Hm).
      split_and!; [|done..].
      exists n. split_and!; [done..|]. by eapply climbs_ext; [..|exact Hc].
  - intros (Hc & Hr & Hm). rewrite (step_back_n_climbs k z _ Hc).
    destruct z'. simpl in *. by subst.
Qed.

(** X8: when the root is [k] steps above the cursor, [step_back(n)] with
    [n > k] throws the "cannot step back" error and leaves the cursor on
    the root: the steps made before the failure are kept. *)
Theorem step_back_n_stops_at_root k (n : Z) z :
  wf z → climbs z k (current z) Root → (Z.of_nat k < n)%Z →
  step_back_n n z = Throw cannot_step_back (Zipper (root z) Root (mem z)).
Proof.
  intros Hwf Hc Hn.
  replace n with (Z.of_nat (S (k + Z.to_nat (n - Z.of_nat k - 1)))) by lia.
  generalize (Z.to_nat (n - Z.of_nat k - 1)) as j. intros j. clear Hn.
  revert z Hwf Hc. induction k as [|k IH]; intros z Hwf Hc.
  - simpl in Hc. rewrite step_back_n_S. unfold mbind, M_bind.
    assert (step_back z = Throw cannot_step_back z) as ->.
    { unfold step_back, can_step_back, mbind, M_bind, get_current, deref.
      rewrite Hc. simpl. rewrite (wf_root z Hwf). done. }
    destruct z. simpl in *. by subst.
  - destruct Hc as (m & Hm & Hp & Hc).
    change (S (S k + j)) with (S (S (k + j))). rewrite step_back_n_S.
    unfold mbind, M_bind.
    assert (step_back z = Ret tt (Zipper (root z) (parent m) (mem z))) as ->
      by (apply step_back_Ret; eauto).
    rewrite IH; [done|by apply (wf_ext z)|by eapply climbs_ext; [..|exact Hc]].
Qed.

Lemma for_loop_app (body : M T unit) a : ∀ b i z,
  for_loop (a + b) i (λ _, body) z =
  (for_loop a i (λ _, body) ;; for_loop b i (λ _, body)) z.
Proof.
  induction a as [|a IH]; intros b i z; simpl; [done|].
  unfold mbind, M_bind. destruct (body z) as [[] z1| |]; [|done..].
  rewrite IH. unfold mbind, M_bind.
  rewrite (for_loop_index a body (i + 1)%Z i).
  destruct (for_loop a i _ z1); [|done..]. apply for_loop_index.
Qed.

(** X9: for non-negative [a] and [b], [step_back(a + b)] is [step_back(a)]
    followed by [step_back(b)], in its result, in the state it leaves and
    in the error it throws. *)
Theorem step_back_n_add (a b : Z) z :
  (0 ≤ a)%Z → (0 ≤ b)%Z →
  step_back_n (a + b) z = (step_back_n a ;; step_back_n b) z.
Proof.
  intros Ha Hb. unfold step_back_n, for_int.
  replace (Z.to_nat (a + b - 0)) with (Z.to_nat (a - 0) + Z.to_nat (b - 0))
    by lia.
  apply for_loop_app.
Qed.

(** *** A chain of new branches *)

Lemma nodes_kept_refl z : nodes_kept z z.
Proof. intros q m Hm. eauto. Qed.

Lemma nodes_kept_trans z1 z2 z3 :
  nodes_kept z1 z2 → nodes_kept z2 z3 → nodes_kept z1 z3.
Proof.
  intros H12 H23 q m Hm.
  destruct (H12 _ _ Hm) as (m2 & Hm2 & Hp2 & Hv2).
  destruct (H23 _ _ Hm2) as (m3 & Hm3 & Hp3 & Hv3).
  exists m3. split_and!; [done|congruence..].
Qed.

Lemma climbs_kept z z' k p q :
  nodes_kept z z' → climbs z k p q → climbs z' k p q.
Proof.
  intros Hk. revert p. induction k as [|k IH]; intros p; simpl; [done|].
  intros (n & Hn & Hp & Hc). destruct (Hk _ _ Hn) as (n' & Hn' & Hp' & _).
  exists n'. rewrite Hp'. eauto.
Qed.

(** Entering a branch below a node without children moves no node. *)
Lemma entre_new_branch_below_leaf v z m :
  wf z → focused z m → v_data (children m) = None →
  ∃ z1,
    entre_new_branch grow v z = Ret tt z1 ∧ wf z1 ∧
    focused z1 (Node empty_vector (current z) v) ∧
    nodes_kept z z1.
Proof.
  intros Hwf Hm Hleaf.
  destruct (entre_new_branch_focused grow v z m Hwf Hm)
    as (z1 & n1 & l & Hrun & Hwf1 & Hl & Hfoc & Hn1 & Hp & Hv & Hl1).
  exists z1. split_and!; [done..|].
  intros q y Hy. destruct (decide (q = current z)) as [->|Hq].
  - unfold focused in Hm. rewrite Hm in Hy. injection Hy as <-. eauto.
  - exists y. split_and!; [|done..].
    destruct (entre_new_branch_inv v z z1 Hrun) as (z0 & n' & Hrun0 & _ & ->).
    rewrite (load_ext z0) by done.
    eapply emplace_back_frame; [exact Hrun0|exact Hm|done..|].
    intros bo j Hbo. by rewrite Hleaf in Hbo.
Qed.

Lemma enter_chain_below_leaf vs : ∀ z m k q,
  wf z → focused z m → v_data (children m) = None →
  climbs z k (current z) q →
  ∃ z', enter_chain grow vs z = Ret tt z' ∧ wf z' ∧
        climbs z' (length vs + k) (current z') q ∧ nodes_kept z z'.
Proof.
  induction vs as [|v vs IH]; intros z m k q Hwf Hm Hleaf Hc.
  - exists z. split_and!; [done..|apply nodes_kept_refl].
  - destruct (entre_new_branch_below_leaf v z m Hwf Hm Hleaf)
      as (z1 & Hrun & Hwf1 & Hfoc & Hkept).
    destruct (IH z1 _ (S k) q Hwf1 Hfoc eq_refl) as (z' & Hrun' & Hwf' & Hc' & Hk').
    { simpl. eexists. split_and!; [exact Hfoc|..].
      - simpl. by eapply focused_not_null.
      - simpl. by eapply climbs_kept. }
    exists z'. split; [|split; [done|split]].
    + simpl. unfold mbind, M_bind. by rewrite Hrun.
    + by replace (length (v :: vs) + k) with (length vs + S k) by (simpl; lia).
    + by eapply nodes_kept_trans.
Qed.

(** X10: on a well-formed store with the cursor on a live node, entering
    a chain of new branches, one below the other, and then calling
    [step_back] with the length of the chain returns the cursor to the
    node it started on, which has kept its value and its [parent]. *)
Theorem enter_chain_then_step_back vs z n :
  wf z → focused z n →
  ∃ z1 z2 n2,
    enter_chain grow vs z = Ret tt z1 ∧
    step_back_n (Z.of_nat (length vs)) z1 = Ret tt z2 ∧
    wf z2 ∧ current z2 = current z ∧
    focused z2 n2 ∧ value n2 = value n ∧ parent n2 = parent n.
Proof.
  intros Hwf Hn. destruct vs as [|v vs].
  - exists z, z, n. by split_and!.
  - destruct (entre_new_branch_focused grow v z n Hwf Hn)
      as (z0 & n1 & l & Hrun & Hwf0 & Hl & Hfoc & Hn1 & Hp & Hv & Hl1).
    destruct (enter_chain_below_leaf vs z0 _ 1 (current z) Hwf0 Hfoc eq_refl)
      as (z1 & Hrun1 & Hwf1 & Hc1 & Hk1).
    { simpl. eexists. split_and!; [exact Hfoc| |done].
      simpl. by eapply focused_not_null. }
    destruct (Hk1 _ _ Hn1) as (n2 & Hn2 & Hp2 & Hv2).
    exists z1, (Zipper (root z1) (current z) (mem z1)), n2. split_and!.
    + simpl. unfold mbind, M_bind. by rewrite Hrun.
    + apply step_back_n_climbs.
      by replace (length (v :: vs)) with (length vs + 1) by (simpl; lia).
    + by apply (wf_ext z1).
    + done.
    + unfold focused. by rewrite (load_ext z1).
    + congruence.
    + congruence.
Qed.

(** *** What every reachable state satisfies *)

Lemma keeps_ret {A : Type} (P : zipper T → Prop) (a : A) :
  keeps P (mret a : M T A).
Proof. intros z z' HP [= <-]. done. Qed.

Lemma keeps_bind {A B : Type} (P : zipper T → Prop) (m : M T A)
    (k : A → M T B) :
  keeps P m → (∀ a, keeps P (k a)) → keeps P (m ≫= k).
Proof.
  intros Hm Hk z z' HP. unfold mbind, M_bind.
  specialize (Hm z). destruct (m z) as [a z1|e z1|]; simpl.
  - apply Hk. by apply Hm.
  - intros [= <-]. by apply Hm.
  - done.
Qed.

Lemma keeps_for_loop (P : zipper T → Prop) k i (body : Z → M T unit) :
  (∀ j, keeps P (body j)) → keeps P (for_loop k i body).
Proof.
  intros Hbody. revert i. induction k as [|k IH]; intros i; simpl.
  - apply keeps_ret.
  - apply keeps_bind; [apply Hbody|]. intros _. apply IH.
Qed.

Lemma sound_step_back v0 : keeps (sound v0) (step_back (T:=T)).
Proof.
  intros z z' (Hwf & Hcur & Hv) Hz.
  destruct (step_back z) as [[] z1|e z1|] eqn:Hsb; simpl in Hz; [| |done];
    injection Hz as <-.
  - apply step_back_Ret in Hsb as (n & Hn & Hp & ->).
    split_and!; [by apply (wf_ext z)|done..].
  - revert Hsb.
    unfold step_back, can_step_back, mbind, M_bind, get_current, deref,
      set_current, throw.
    destruct (load z (current z)) eqn:Hl; simpl; [|done].
    case_bool_decide; simpl; rewrite ?Hl; [done|]. by intros [= _ <-].
Qed.

Lemma sound_step_forward v0 i : keeps (sound v0) (step_forward (T:=T) i).
Proof.
  intros z z' (Hwf & Hcur & Hv).
  unfold step_forward, mbind, M_bind, get_current, deref, set_current, throw.
  case_decide; simpl; [by intros [= <-]|].
  destruct (load z (current z)) as [n|] eqn:Hn; simpl; [|done].
  case_decide as Hsz; simpl; intros [= <-]; [done|].
  split_and!; [by apply (wf_ext z)| |done]. simpl.
  destruct (wf_vec z Hwf _ _ Hn) as [[l Hl] _].
  apply contents_Some in Hl as [Hlen Hl]. unfold at_index.
  destruct (v_data (children n)); [done|]. subst l. simpl in Hlen. lia.
Qed.

Lemma sound_entre_new_branch (v0 v : T) :
  keeps (sound v0) (entre_new_branch grow v).
Proof.
  intros z z' (Hwf & Hcur & Hv) Hz.
  assert (wf z') as Hwf'
    by (by eapply (preserves_wf_entre_new_branch grow v z z')).
  destruct (entre_new_branch grow v z) as [[] z1|e z1|] eqn:Hrun;
    simpl in Hz; [| |done]; injection Hz as <-.
  - destruct (entre_new_branch_inv v z z1 Hrun) as (z0 & n' & Hrun0 & Hn' & ->).
    destruct (emplace_back_effect _ _ _ _ _ Hwf Hrun0)
      as (n & l & bn & cp & Hn & _ & _ & _ & _ & _ & _ & Hside).
    cbv zeta in Hside. destruct Hside as (Hn'' & _ & Hcls).
    rewrite Hn'' in Hn'. injection Hn' as <-.
    split_and!; [done|done|]. simpl.
    destruct (Hcls Root (root z0) eq_refl)
      as [[E ->]|[[? _]|(q0 & _ & Hq0 & [<-|(? & ? & _ & _ & ? & _)])]];
      [|done| |done].
    + simpl. rewrite <- E in Hn. simpl in Hn. injection Hn as <-. done.
    + simpl in Hq0. by injection Hq0 as <-.
  - exfalso. revert Hrun.
    unfold entre_new_branch, emplace_branch, mbind, M_bind, get_current.
    pose proof (emplace_back_never_throws grow (current z)
                  (Node empty_vector (current z) v) z) as Hnt.
    destruct (emplace_back grow (current z) _ z); [|by destruct (Hnt e0 z0)|done].
    unfold deref, set_current. by destruct (load _ _).
Qed.

(** X11: every state reached from [zipper(v0)] by [step_back],
    [step_back(n)], [step_forward] and [entre_new_branch] calls, failed
    ones included, has a well-formed store (vectors backed by live
    buffers, one owner per buffer, no cycle of ownership, a null [parent]
    at the root only), a cursor that is not null, and the root still
    carrying [v0]. *)
Theorem reachable_sound (v0 : T) z : reachable grow v0 z → sound v0 z.
Proof.
  induction 1 as [|z c z' _ IH Hstep].
  - split_and!; [apply wf_zipper_init|done..].
  - revert Hstep. apply (λ H, H z z' IH). destruct c; simpl.
    + apply sound_step_back.
    + apply keeps_for_loop. intros _. apply sound_step_back.
    + apply sound_step_forward.
    + apply sound_entre_new_branch.
Qed.

(** *** Traversals of the children *)

Lemma same_links_refl m : same_links m m.
Proof. by split. Qed.

Lemma rewrite_block_load z b l l' q :
  live (mem z) b = Some l → Forall2 same_links l l' →
  option_Forall2 same_links (load z q)
    (load (Zipper (root z) (current z) (<[b := Some l']> (mem z))) q).
Proof.
  intros Hl Hll. apply live_lt in Hl as Hb.
  destruct q as [| |c j]; simpl.
  - constructor.
  - constructor. apply same_links_refl.
  - destruct (decide (c = b)) as [->|Hc].
    + rewrite live_insert_eq by done. rewrite Hl. simpl.
      by apply Forall2_lookup.
    + rewrite live_insert_ne by done.
      destruct (live (mem z) c ≫= _); constructor. apply same_links_refl.
Qed.

Lemma rewrite_block_frame z b l' q :
  (∀ i, q ≠ Elem b i) →
  load (Zipper (root z) (current z) (<[b := Some l']> (mem z))) q = load z q.
Proof.
  intros Hq. destruct q as [| |c j]; simpl; [done..|].
  rewrite live_insert_ne; [done|]. intros ->. by eapply Hq.
Qed.

Lemma rewrite_block_contents z b l l' v :
  live (mem z) b = Some l → length l' = length l →
  is_Some (contents (mem z) v) →
  is_Some (contents (<[b := Some l']> (mem z)) v).
Proof.
  intros Hl Hlen. apply live_lt in Hl as Hb. unfold contents.
  destruct (v_data v) as [c|]; [|done].
  destruct (decide (c = b)) as [->|Hc].
  - rewrite live_insert_eq by done. rewrite Hl. simpl. rewrite Hlen.
    by case_decide.
  - by rewrite live_insert_ne.
Qed.

Lemma rewrite_block_wf z b l l' :
  wf z → live (mem z) b = Some l → Forall2 same_links l l' →
  wf (Zipper (root z) (current z) (<[b := Some l']> (mem z))).
Proof.
  intros [H1 H2 H3 H4 H5 (dp & Hd1 & Hd2 & Hd3)] Hl Hll.
  pose proof (rewrite_block_load z b l l') as Hload.
  assert (Hback : ∀ q m', load (Zipper (root z) (current z)
                                  (<[b := Some l']> (mem z))) q = Some m' →
            ∃ m, load z q = Some m ∧ same_links m m').
  { intros q m' Hq. specialize (Hload q Hl Hll). rewrite Hq in Hload.
    inversion Hload; subst. eauto. }
  apply Forall2_length in Hll as Hlen. apply live_lt in Hl as Hb.
  split.
  - done.
  - intros c i n' Hn'. apply Hback in Hn' as (m & Hm & _ & Hp).
    rewrite Hp. by eapply H2.
  - intros q n' Hn'. apply Hback in Hn' as (m & Hm & Hc & _).
    rewrite Hc. destruct (H3 _ _ Hm) as [Hs Hcap]. split; [|done]. simpl.
    by eapply rewrite_block_contents.
  - intros c i n' Hn'. apply Hback in Hn' as (m & Hm & Hc & _).
    rewrite Hc. by eapply H4.
  - intros p q n1 n2 c Hn1 Hn2.
    apply Hback in Hn1 as (m1 & Hm1 & Hc1 & _).
    apply Hback in Hn2 as (m2 & Hm2 & Hc2 & _).
    rewrite Hc1, Hc2. by eapply H5.
  - exists dp. split_and!.
    + done.
    + intros c i n' c' Hn'. apply Hback in Hn' as (m & Hm & Hc & _).
      rewrite Hc. by eapply Hd2.
    + intros c lc. simpl. rewrite length_insert.
      destruct (decide (c = b)) as [->|Hc].
      * intros _. by eapply Hd3.
      * rewrite live_insert_ne by done. apply Hd3.
Qed.

(** Writing back the elements of the vector of a live node. *)
Lemma write_back_rewritten z this n l l' :
  wf z → load z this = Some n → contents (mem z) (children n) = Some l →
  Forall2 same_links l l' →
  let z' := Zipper (root z) (current z) (write_back (mem z) (children n) l') in
  wf z' ∧ values_rewritten (v_data (children n)) z z' ∧
  child_values z' n = value <$> l'.
Proof.
  intros Hwf Hn Hl Hll. simpl.
  destruct (contents_Some _ _ _ Hl) as [Hlen Hd]. unfold write_back, child_values, contents in *.
  apply Forall2_length in Hll as Hlen'.
  destruct (v_data (children n)) as [b|] eqn:Hb.
  - apply live_lt in Hd as Hlt. split_and!.
    + by eapply rewrite_block_wf.
    + split_and!; simpl; try done.
      * by rewrite length_insert.
      * intros q. by eapply rewrite_block_load.
      * intros q Hq. apply rewrite_block_frame. intros i. by apply Hq.
    + simpl. rewrite live_insert_eq by done. simpl.
      rewrite decide_True by lia. done.
  - subst l. apply Forall2_nil_inv_l in Hll as ->.
    assert (Zipper (root z) (current z) (mem z) = z) as -> by by destruct z.
    split_and!; [done| |].
    + split_and!; try done. intros q. destruct (load z q); constructor.
      apply same_links_refl.
    + by case_decide.
Qed.

Lemma for_each_on_member {S : Type} (f : T → S → call_end T S unit) l (s : S) :
  let r := for_each (on_member f) l s in
  let r' := for_each f (value <$> l) s in
  value <$> r.1.1 = r'.1.1 ∧ r.1.2 = r'.1.2 ∧ r.2 = r'.2 ∧
  Forall2 same_links l r.1.1.
Proof.
  revert s. induction l as [|x l IH]; intros s; [by split_and!|].
  cbv zeta in *. rewrite fmap_cons.
  change (for_each (on_member f) (x :: l) s) with
    (match on_member f x s with
     | Returned x' _ s' =>
         let '(l'', s'', e) := for_each (on_member f) l s' in
         (x' :: l'', s'', e)
     | Raised e x' s' => (x' :: l, s', Some e)
     end).
  change (for_each f (value x :: (value <$> l)) s) with
    (match f (value x) s with
     | Returned x' _ s' =>
         let '(l'', s'', e) := for_each f (value <$> l) s' in
         (x' :: l'', s'', e)
     | Raised e x' s' => (x' :: (value <$> l), s', Some e)
     end).
  unfold on_member at 1 3 5 7.
  destruct (f (value x) s) as [v' [] s'|e v' s'].
  - specialize (IH s').
    destruct (for_each (on_member f) l s') as [[l1 s1] e1].
    destruct (for_each f (value <$> l) s') as [[l2 s2] e2].
    simpl in *. destruct IH as (Hv & -> & -> & Hl).
    split_and!; try done; [f_equal; exact Hv|by constructor].
  - simpl. split_and!; try done. constructor; [done|].
    apply Forall2_same_length_lookup_2; [done|]. intros i a b' H1 H2.
    assert (a = b') as -> by congruence. apply same_links_refl.
Qed.

Lemma for_each_raised {A S : Type} (f : A → S → call_end A S unit)
    (xs xs' : list A) (s s' : S) e :
  for_each f xs s = (xs', s', Some e) →
  ∃ xs1 xs1' x x' xs2 s1,
    xs = xs1 ++ x :: xs2 ∧ for_each f xs1 s = (xs1', s1, None) ∧
    f x s1 = Raised e x' s' ∧ xs' = xs1' ++ x' :: xs2 ∧
    length xs1' = length xs1.
Proof.
  revert xs' s. induction xs as [|x xs IH]; intros xs' s; simpl; [done|].
  destruct (f x s) as [x' [] s0|e0 x' s0] eqn:Hf.
  - destruct (for_each f xs s0) as [[xs0 s1] e1] eqn:Hl. intros [= <- <- ->].
    destruct (IH _ _ Hl)
      as (xs1 & xs1' & y & y' & xs2 & s2 & -> & H1 & H2 & -> & H3).
    exists (x :: xs1), (x' :: xs1'), y, y', xs2, s2. simpl. rewrite Hf, H1.
    split_and!; try done. by rewrite H3.
  - intros [= <- <- <-]. by exists [], [], x, x', xs, s.
Qed.

Lemma fold_loop_links {S Acc : Type} (g : T → Acc → S → call_end T S Acc)
    l (init : Acc) (s : S) :
  Forall2 same_links l (fold_loop g l init s).1.1.
Proof.
  revert init s. induction l as [|x l IH]; intros init s; simpl; [done|].
  destruct (g (value x) init s) as [v' r s'|e v' s'].
  - specialize (IH r s'). destruct (fold_loop g l r s') as [[l1 s1] r1].
    simpl in *. by constructor.
  - simpl. constructor; [done|].
    apply Forall2_same_length_lookup_2; [done|]. intros i a b' H1 H2.
    assert (a = b') as -> by congruence. apply same_links_refl.
Qed.

Lemma fold_loop_pure {S Acc : Type} (g : T → Acc → S → call_end T S Acc)
    (k : T → Acc → Acc) l (init : Acc) (s : S) :
  (∀ v acc s, g v acc s = Returned v (k v acc) s) →
  fold_loop g l init s =
    (l, s, inl (fold_left (λ acc v, k v acc) (value <$> l) init)).
Proof.
  intros Hg. revert init. induction l as [|x l IH]; intros init; simpl; [done|].
  rewrite Hg, IH. by destruct x.
Qed.

Lemma write_back_same z n l :
  contents (mem z) (children n) = Some l →
  Zipper (root z) (current z) (write_back (mem z) (children n) l) = z.
Proof.
  intros Hl. destruct (contents_Some _ _ _ Hl) as [_ Hd]. unfold write_back.
  destruct (v_data (children n)) as [b|].
  - apply live_Some in Hd. rewrite list_insert_id by done. by destruct z.
  - by destruct z.
Qed.

(** X12: on a live node of a well-formed store, [foreach_child] asks of its
    callable only that it can be called on a value; for a callable that does
    not reach the zipper itself, it hands it the values of the children in
    child order, as [std::for_each] would hand them over in a sequence of
    their own, and ends as that loop ends, normally or with the exception of
    the first call that throws; the children then hold the values the calls
    left, the store is still well-formed, and nothing else has changed: the
    root object, the cursor, the [children] and [parent] of every node and
    every node outside the buffer of the children. *)
Theorem foreach_child_rewrites_values {S : Type}
    (p : callable T (S → call_end T S unit))
    (f : T → S → call_end T S unit) (s : S) this z n :
  wf z → load z this = Some n → on_value p = Some f →
  ∃ z',
    foreach_child p this s z =
      match (for_each f (child_values z n) s).2 with
      | None => Done tt (for_each f (child_values z n) s).1.2 z'
      | Some e => Failed e (for_each f (child_values z n) s).1.2 z'
      end ∧
    child_values z' n = (for_each f (child_values z n) s).1.1 ∧
    wf z' ∧ values_rewritten (v_data (children n)) z z'.
Proof.
  intros Hwf Hn Hf. destruct (wf_vec z Hwf _ _ Hn) as [[l Hl] _].
  unfold foreach_child. rewrite Hf, Hn, Hl.
  rewrite (child_values_contents _ _ _ Hl).
  destruct (for_each_on_member f l s) as (Hv & Hs & He & Hll).
  destruct (for_each (on_member f) l s) as [[l' s'] e].
  destruct (for_each f (value <$> l) s) as [[vs s2] e2].
  simpl in Hv, Hs, He, Hll. subst vs s2 e2. simpl.
  destruct (write_back_rewritten z this n l l' Hwf Hn Hl Hll) as (Hwf' & Hrw & Hcv).
  eexists. split_and!; [by destruct e| |exact Hwf'|exact Hrw]. exact Hcv.
Qed.

(** X14: when a call of a callable that does not reach the zipper itself
    throws, [foreach_child] passes the exception on and undoes nothing: the
    calls on the children before the failing one all returned and their
    writes stay, the failing call's write stays, the children after it were
    not visited and keep their values, what the callable reaches by
    reference is as the failing call left it, and the store is well-formed. *)
Theorem foreach_child_stops_at_exception {S : Type}
    (p : callable T (S → call_end T S unit))
    (f : T → S → call_end T S unit) (s s' : S) this z z' n e :
  wf z → load z this = Some n → on_value p = Some f →
  foreach_child p this s z = Failed e s' z' →
  ∃ vs1 vs1' v v' vs2 s1,
    child_values z n = vs1 ++ v :: vs2 ∧
    for_each f vs1 s = (vs1', s1, None) ∧
    f v s1 = Raised e v' s' ∧
    child_values z' n = vs1' ++ v' :: vs2 ∧ length vs1' = length vs1 ∧
    wf z'.
Proof.
  intros Hwf Hn Hf. destruct (wf_vec z Hwf _ _ Hn) as [[l Hl] _].
  unfold foreach_child. rewrite Hf, Hn, Hl.
  rewrite (child_values_contents _ _ _ Hl).
  destruct (for_each_on_member f l s) as (Hv & Hs & He & Hll).
  destruct (for_each (on_member f) l s) as [[l' s0] e0].
  destruct (for_each f (value <$> l) s) as [[vs s2] e2] eqn:Hrun.
  simpl in Hv, Hs, He, Hll. subst vs s2 e2.
  destruct (write_back_rewritten z this n l l' Hwf Hn Hl Hll) as (Hwf' & _ & Hcv).
  destruct e0 as [e0|]; [|done]. intros [= -> -> <-].
  destruct (for_each_raised _ _ _ _ _ _ Hrun)
    as (vs1 & vs1' & x & x' & vs2 & s1 & H1 & H2 & H3 & H4 & H5).
  exists vs1, vs1', x, x', vs2, s1. rewrite Hcv. by split_and!.
Qed.

(** X13: with the cursor on a live node of a well-formed store and a folder
    that can be called on a value and does not reach the zipper itself,
    [fold_children] has no defined result unless the folder can also be
    called on a node; when it can, the fold ends with a result or with the
    folder's exception, leaves the store well-formed and changes nothing but
    values of the children; and for a folder that does not throw, writes to
    nothing and computes [k v acc], it returns the left fold of [k] over the
    children's values in child order from [init] and leaves the state as it
    was. *)
Theorem fold_children_folds {S Acc : Type}
    (f : callable T (Acc → S → call_end T S Acc))
    (g : T → Acc → S → call_end T S Acc) (init : Acc) (s : S) z n :
  wf z → focused z n → on_value f = Some g →
  (on_node f = None → fold_children f init s z = NoBehaviour) ∧
  (is_Some (on_node f) →
     (∃ s' z',
        ((∃ a, fold_children f init s z = Done a s' z') ∨
         (∃ e, fold_children f init s z = Failed e s' z')) ∧
        wf z' ∧ values_rewritten (v_data (children n)) z z') ∧
     (∀ k : T → Acc → Acc,
        (∀ v acc s0, g v acc s0 = Returned v (k v acc) s0) →
        fold_children f init s z =
          Done (fold_left (λ acc v, k v acc) (child_values z n) init) s z)).
Proof.
  intros Hwf Hn Hg. destruct (wf_vec z Hwf _ _ Hn) as [[l Hl] _].
  unfold fold_children, node_fold_children. unfold focused in Hn.
  rewrite Hg, Hn, Hl. split; [by intros ->|]. intros [g' ->]. split.
  - pose proof (fold_loop_links g l init s) as Hll.
    destruct (fold_loop g l init s) as [[l' s'] r]. simpl in Hll.
    destruct (write_back_rewritten z _ n l l' Hwf Hn Hl Hll) as (Hwf' & Hrw & _).
    eexists s', _. split_and!; [|exact Hwf'|exact Hrw].
    destruct r; eauto.
  - intros k Hk. rewrite (fold_loop_pure g k) by done.
    rewrite (write_back_same z n l Hl).
    by rewrite (child_values_contents _ _ _ Hl).
Qed.
(** *** Printing a subtree *)

(** X15: [node::printTree(output, depth)] on any live node of a
    well-formed store, started at any depth [d] that keeps [depth * 4]
    within [int], writes the lines of the tree below that node in
    pre-order, the node itself in a field of [d × 4] characters and each
    level below four characters wider; with a [depth] whose fourfold does
    not fit an [int] it has no defined result. *)
Theorem node_printTree_at_depth (show : T → string) z p n (d : nat)
    (out : string) :
  wf z → load z p = Some n →
  (4 * (Z.of_nat d + Z.of_nat (length (mem z)) + 1) ≤ INT_MAX)%Z →
  (∃ t, tree_of (S (length (mem z))) (mem z) n = Some t ∧
        ∀ fuel, length (mem z) < fuel →
          node_printTree show fuel (mem z) n (Z.of_nat d) out =
            Some (out +:+ render show d t)) ∧
  (∀ fuel depth, (INT_MAX < depth * 4)%Z →
     node_printTree show fuel (mem z) n depth out = None).
Proof.
  intros Hwf Hn Hd. split.
  - assert (is_Some (tree_of (S (length (mem z))) (mem z) n)) as [t Ht].
    { destruct p as [| |b i]; [done| |].
      - injection Hn as <-. by apply tree_of_root_total.
      - destruct (wf_layers z Hwf) as (dp & Hlay).
        apply (tree_of_total z dp Hwf Hlay _ b i); [exact Hn|lia]. }
    exists t. split; [done|]. intros fuel Hfuel.
    pose proof (tree_of_height _ _ _ _ Ht) as Hh.
    apply (node_printTree_render show (S (length (mem z)))); [done|lia|lia].
  - intros [|fuel] depth Hover; [done|]. rewrite node_printTree_S.
    assert (int_arith (depth * 4) = None) as ->; [|done].
    unfold int_arith. by rewrite decide_False by lia.
Qed.

End MoreFacts.

(** ** The further properties at concrete states *)

Lemma parents_correct_scenario_C : parents_correct scenario_C_state.
Proof.
  intros p n c i ch Hn Hc Hch. destruct p as [| |b j]; [done| |].
  - injection Hn as <-. injection Hc as <-.
    destruct i as [|[|[|i]]]; simpl in Hch; by simplify_eq.
  - destruct b as [|[|[|b]]]; [done|done| |by destruct b].
    destruct j as [|[|[|j]]]; simpl in Hn; by simplify_eq.
Qed.

Lemma can_step_forward_iff_children_witness :
  can_step_forward scenario_C_state = Ret true scenario_C_state ∧
  available_branches scenario_C_state
    = Ret (Vector (Some 2) 3 4) scenario_C_state ∧
  3 = length [10; 20; 30]%Z ∧
  ([10; 20; 30]%Z ≠ [] ↔ ∃ z', step_forward 0 scenario_C_state = Ret tt z').
Proof.
  apply (can_step_forward_iff_children scenario_C_state
           (root scenario_C_state)).
  - apply wf_scenario_C.
  - reflexivity.
Defined.

Lemma entre_new_branch_appends_leaf_witness :
  ∃ z1 n1 l,
    entre_new_branch libstdcxx_grow 40%Z scenario_C_state = Ret tt z1 ∧
    wf z1 ∧
    focused z1 (Node empty_vector Root 40%Z) ∧
    can_step_back z1 = Ret true z1 ∧
    can_step_forward z1 = Ret false z1 ∧
    load z1 Root = Some n1 ∧
    parent n1 = nullptr ∧ value n1 = 0%Z ∧
    contents (mem scenario_C_state) (children (root scenario_C_state))
      = Some l ∧
    contents (mem z1) (children n1) = Some (l ++ [Node empty_vector Root 40%Z]) ∧
    current z1 = at_index (children n1) (length l).
Proof.
  apply (entre_new_branch_appends_leaf libstdcxx_grow 40%Z scenario_C_state
           (root scenario_C_state)).
  - apply wf_scenario_C.
  - reflexivity.
Defined.

Lemma entre_new_branch_frame_witness :
  ∃ z1,
    entre_new_branch libstdcxx_grow 9%Z scenario_A_state = Ret tt z1 ∧
    load z1 (Elem 0 0) = Some (Node (Vector (Some 1) 1 1) Root 0%Z).
Proof.
  eexists. split; [reflexivity|].
  apply (entre_new_branch_frame libstdcxx_grow 9%Z scenario_A_state _
           (Node empty_vector (Elem 1 0) 2%Z)).
  - reflexivity.
  - reflexivity.
  - reflexivity.
  - discriminate.
  - discriminate.
Defined.

Lemma entre_new_branch_keeps_parents_witness :
  ∃ z1,
    entre_new_branch libstdcxx_grow 40%Z scenario_C_state = Ret tt z1 ∧
    parents_correct z1.
Proof.
  eexists. split; [reflexivity|].
  apply (entre_new_branch_keeps_parents libstdcxx_grow 40%Z scenario_C_state _
           (root scenario_C_state)
           [Node empty_vector Root 10%Z; Node empty_vector Root 20%Z;
            Node empty_vector Root 30%Z]).
  - apply wf_scenario_C.
  - reflexivity.
  - apply parents_correct_scenario_C.
  - reflexivity.
  - left. simpl. lia.
  - reflexivity.
Defined.

Lemma step_forward_then_step_back_witness :
  ∃ z1, step_forward 1 scenario_C_state = Ret tt z1 ∧
        step_back z1 = Ret tt scenario_C_state.
Proof.
  apply (step_forward_then_step_back scenario_C_state (root scenario_C_state)).
  - apply wf_scenario_C.
  - reflexivity.
  - apply parents_correct_scenario_C.
  - simpl. lia.
Defined.

Lemma step_forward_last_undoes_step_back_witness :
  ∃ z1 z2,
    entre_new_branch libstdcxx_grow 40%Z scenario_C_state = Ret tt z1 ∧
    step_back z1 = Ret tt z2 ∧
    step_forward 3 z2 = Ret tt z1.
Proof.
  apply (step_forward_last_undoes_step_back libstdcxx_grow 40%Z
           scenario_C_state (root scenario_C_state)).
  - apply wf_scenario_C.
  - reflexivity.
Defined.

Lemma climbs_scenario_A : climbs scenario_A_state 3 (Elem 2 0) Root.
Proof.
  simpl. eexists. split_and!; [reflexivity|done|]. simpl.
  eexists. split_and!; [reflexivity|done|]. simpl.
  eexists. split_and!; [reflexivity|done|]. done.
Qed.

Lemma step_back_n_stops_at_root_witness :
  step_back_n 5 scenario_A_state =
    Throw cannot_step_back
      (Zipper (root scenario_A_state) Root (mem scenario_A_state)).
Proof.
  apply (step_back_n_stops_at_root 3 5 scenario_A_state).
  - apply wf_scenario_A.
  - apply climbs_scenario_A.
  - lia.
Defined.

Lemma step_back_n_add_witness :
  step_back_n (1 + 2) scenario_A_state =
    (step_back_n 1 ;; step_back_n 2) scenario_A_state.
Proof. apply step_back_n_add; lia. Defined.

Lemma enter_chain_then_step_back_witness :
  ∃ z1 z2 n2,
    enter_chain libstdcxx_grow [1; 2; 3]%Z scenario_C_state = Ret tt z1 ∧
    step_back_n (Z.of_nat (length [1; 2; 3]%Z)) z1 = Ret tt z2 ∧
    wf z2 ∧ current z2 = Root ∧
    focused z2 n2 ∧ value n2 = 0%Z ∧ parent n2 = nullptr.
Proof.
  apply (enter_chain_then_step_back libstdcxx_grow [1; 2; 3]%Z
           scenario_C_state (root scenario_C_state)).
  - apply wf_scenario_C.
  - reflexivity.
Defined.

Lemma reachable_sound_witness : sound (-1)%Z grown_state.
Proof.
  apply (reachable_sound libstdcxx_grow).
  eapply (reachable_step _ _ _ (EntreNewBranch 2%Z)).
  - eapply (reachable_step _ _ _ (StepBackN 2)).
    + eapply (reachable_step _ _ _ (EntreNewBranch 1%Z)).
      * eapply (reachable_step _ _ _ (EntreNewBranch 0%Z)).
        -- apply reachable_init.
        -- reflexivity.
      * reflexivity.
    + reflexivity.
  - reflexivity.
Defined.

(** Scenario D: [double_until_3] over the children 1, 2, 3, 4 of the
    root. *)
Lemma foreach_child_rewrites_values_witness :
  ∃ z',
    foreach_child (Callable (Some double_until_3) None) Root [] scenario_D_state
      = Failed (runtime_error "three") [1; 2]%Z z' ∧
    child_values z' (root scenario_D_state) = [2; 4; 3; 4]%Z ∧
    wf z' ∧ current z' = Root.
Proof.
  destruct (foreach_child_rewrites_values
              (Callable (Some double_until_3) None) double_until_3 []
              Root scenario_D_state (root scenario_D_state))
    as (z' & Hrun & Hvals & Hwf & _ & Hcur & _).
  - apply wf_scenario_D.
  - reflexivity.
  - reflexivity.
  - exists z'. split_and!; [exact Hrun|exact Hvals|exact Hwf|exact Hcur].
Defined.

Lemma fold_children_folds_witness :
  fold_children
    (Callable (Some sum_folder) (Some (λ _ acc s, Returned 0%Z acc s)))
    0%Z tt scenario_D_state =
  Done 10%Z tt scenario_D_state.
Proof.
  destruct (fold_children_folds
              (Callable (Some sum_folder) (Some (λ _ acc s, Returned 0%Z acc s)))
              sum_folder 0%Z tt scenario_D_state (root scenario_D_state))
    as [_ H].
  - apply wf_scenario_D.
  - reflexivity.
  - reflexivity.
  - destruct H as [_ H]; [eexists; reflexivity|].
    apply (H Z.add). intros v acc s0. reflexivity.
Defined.

Lemma foreach_child_stops_at_exception_witness :
  ∃ vs1 vs1' v v' vs2 s1,
    child_values scenario_D_state (root scenario_D_state) = vs1 ++ v :: vs2 ∧
    for_each double_until_3 vs1 [] = (vs1', s1, None) ∧
    double_until_3 v s1 = Raised (runtime_error "three") v' [1; 2]%Z ∧
    child_values scenario_D_after (root scenario_D_state)
      = vs1' ++ v' :: vs2 ∧
    length vs1' = length vs1 ∧
    wf scenario_D_after.
Proof.
  apply (foreach_child_stops_at_exception
           (Callable (Some double_until_3) None) double_until_3 [] [1; 2]%Z
           Root scenario_D_state scenario_D_after (root scenario_D_state)
           (runtime_error "three")).
  - apply wf_scenario_D.
  - reflexivity.
  - reflexivity.
  - reflexivity.
Defined.

Lemma node_printTree_at_depth_witness :
  node_printTree pretty 4 (mem scenario_A_state)
    (Node (Vector (Some 2) 1 1) (Elem 0 0) 1%Z) (Z.of_nat 2) "" =
  Some "       1
           2
".
Proof.
  destruct (node_printTree_at_depth pretty scenario_A_state (Elem 1 0)
              (Node (Vector (Some 2) 1 1) (Elem 0 0) 1%Z) 2 "")
    as [(t & Ht & Hprint) _].
  - apply wf_scenario_A.
  - reflexivity.
  - vm_compute. discriminate.
  - vm_compute in Ht. injection Ht as <-.
    rewrite (Hprint 4) by (simpl; lia). reflexivity.
Defined.
